(** * cronrange: a shallow embedding of the parser, matcher and formatter

    The development follows [rule.go] (the [Rule], [TimeRange] and [Field]
    types with their parsers, [matches] and [String] methods) and
    [cronrange.go] ([Parse], [ParseFromReader], [Match]).

    Go strings are byte sequences, modelled as [list ascii]; Go [int] and
    [time.Duration] are 64-bit signed integers, modelled as [Z] with the
    wrap-around written out; [map[int]bool] is a [gmap Z bool]. *)

From Stdlib Require Import ZArith Ascii String Lia.
From stdpp Require Import base list gmap sorting.

Local Open Scope Z_scope.

(** ** Go strings *)

Abbreviation gostring := (list ascii).

(** String literals are written [str "..."]. *)
Definition str (s : string) : gostring := list_ascii_of_string s.

Definition byte_of (c : ascii) : Z := Z.of_N (N_of_ascii c).

Definition ch (s : string) : ascii :=
  match s with String c _ => c | EmptyString => zero end.

(** ** The Go library functions the package calls

    Each is modelled for the arguments the package passes: every separator
    given to [strings.Split], [strings.Contains] is a one-byte string. *)

(** [strings.Split(s, sep)]: the pieces of [s] between the occurrences of
    the byte [sep]; always at least one piece. *)
Fixpoint Split (s : gostring) (sep : ascii) : list gostring :=
  match s with
  | [] => [[]]
  | c :: s' =>
      if bool_decide (c = sep) then [] :: Split s' sep
      else match Split s' sep with
           | p :: ps => (c :: p) :: ps
           | [] => [[c]]
           end
  end.

(** [strings.Contains(s, sep)] for a one-byte [sep]. *)
Definition Contains (s : gostring) (sep : ascii) : bool :=
  bool_decide (sep ∈ s).

(** [strings.Join(elems, sep)]. *)
Fixpoint Join (elems : list gostring) (sep : gostring) : gostring :=
  match elems with
  | [] => []
  | [e] => e
  | e :: es => e ++ sep ++ Join es sep
  end.

(** [unicode.IsSpace] read on the UTF-8 bytes at the head of [s]: the
    number of bytes of the white-space rune that starts there, or [0].
    White space is U+0009..U+000D, U+0020, U+0085, U+00A0, U+1680,
    U+2000..U+200A, U+2028, U+2029, U+202F, U+205F and U+3000.  Each of
    these encodings starts with a byte that is never a continuation byte,
    so looking for them at every byte offset finds exactly the runes that
    Go's decoder finds.  No encoding is longer than three bytes. *)
Definition space_len (s : gostring) : nat :=
  match map byte_of (take 3 s) with
  | 9 :: _ | 10 :: _ | 11 :: _ | 12 :: _ | 13 :: _ | 32 :: _ => 1%nat
  | 194 :: 133 :: _ | 194 :: 160 :: _ => 2%nat
  | 225 :: 154 :: 128 :: _ => 3%nat
  | 226 :: 128 :: b :: _ =>
      if ((128 <=? b) && (b <=? 138)) || (b =? 168) || (b =? 169) || (b =? 175)
      then 3%nat else 0%nat
  | 226 :: 129 :: 159 :: _ => 3%nat
  | 227 :: 128 :: 128 :: _ => 3%nat
  | _ => 0%nat
  end.

(** The same test on the reversed string, for trimming at the right end. *)
Definition space_len_rev (r : gostring) : nat :=
  match r with
  | c :: _ =>
      if (space_len [c] =? 1)%nat then 1
      else match r with
           | c2 :: c1 :: _ =>
               if (space_len [c1; c2] =? 2)%nat then 2
               else match r with
                    | c3 :: c2 :: c1 :: _ =>
                        if (space_len [c1; c2; c3] =? 3)%nat then 3 else 0
                    | _ => 0
                    end
           | _ => 0
           end
  | [] => 0
  end%nat.

Fixpoint trim_with (width : gostring → nat) (fuel : nat) (s : gostring)
  : gostring :=
  match fuel with
  | O => s
  | S fuel' =>
      match width s with
      | O => s
      | w => trim_with width fuel' (drop w s)
      end
  end.

(** [strings.TrimSpace(s)]: drop the leading, then the trailing white
    space. *)
Definition TrimSpace (s : gostring) : gostring :=
  let l := trim_with space_len (length s) s in
  reverse (trim_with space_len_rev (length l) (reverse l)).

Definition flush (cur : gostring) : list gostring :=
  match cur with [] => [] | _ => [cur] end.

(** [Fields_go s skip cur]: [skip] bytes of a white-space rune are still
    to be passed over, [cur] is the field collected so far. *)
Fixpoint Fields_go (s : gostring) (skip : nat) (cur : gostring)
  : list gostring :=
  match s with
  | [] => flush cur
  | c :: s' =>
      match skip with
      | S k => Fields_go s' k cur
      | O =>
          match space_len s with
          | O => Fields_go s' 0 (cur ++ [c])
          | S k => flush cur ++ Fields_go s' k []
          end
      end
  end.

(** [strings.Fields(s)]: the maximal runs of non-space bytes. *)
Definition Fields (s : gostring) : list gostring := Fields_go s 0 [].

(** ** Machine integers *)

Definition MaxInt64 : Z := 9223372036854775807.
Definition MinInt64 : Z := -9223372036854775808.
Definition MaxUint64 : Z := 18446744073709551615.

(** Two's-complement wrap-around of 64-bit signed arithmetic. *)
Definition wrap64 (z : Z) : Z := (z + 2 ^ 63) mod 2 ^ 64 - 2 ^ 63.

Definition add64 (a b : Z) : Z := wrap64 (a + b).
Definition mul64 (a b : Z) : Z := wrap64 (a * b).

(** ** Errors and results *)

(** The two causes a [*strconv.NumError] carries. *)
Inductive num_cause := ErrSyntax | ErrRange.

(** The error values of the package, one constructor per [fmt.Errorf]
    text; a wrapping ([%w]) constructor keeps the wrapped error. *)
Inductive error :=
  | ErrFieldCount                 (* rule must have 4 fields: time dow dom month *)
  | ErrTimeRangeFormat            (* invalid time range format *)
  | ErrTimeFormat                 (* invalid time format *)
  | ErrTimeValues                 (* invalid time values *)
  | ErrRangeFormat                (* invalid range format *)
  | ErrValuesOutOfRange           (* values out of range *)
  | ErrValueOutOfRange            (* value out of range *)
  | ErrNum (num : gostring) (cause : num_cause)   (* strconv.Atoi: parsing ... *)
  | ErrInvalidDow (e : error)     (* invalid dow: %w *)
  | ErrInvalidDom (e : error)     (* invalid dom: %w *)
  | ErrInvalidMonth (e : error)   (* invalid month: %w *)
  | ErrInvalidRule (text : gostring) (e : error)  (* invalid rule '%s': %w *)
  | ErrCantRead (e : error)       (* can't read from reader: %w *)
  | ErrTooLong                    (* bufio.Scanner: token too long *)
  | ErrReadInput (e : error).     (* error reading input: %w *)

(** What a call does: return a value, return an error, or never return
    ([Hang]: the only loop of the package that can fail to terminate is the
    range loop of [parseField], see [range_loop]). *)
Inductive result (A : Type) :=
  | Ok (a : A)
  | Err (e : error)
  | Hang.
Arguments Ok {A} a.
Arguments Err {A} e.
Arguments Hang {A}.

Global Instance result_bind : MBind result := λ A B k m,
  match m with Ok a => k a | Err e => Err e | Hang => Hang end.

(** [fmt.Errorf("...: %w", err)] on the error path of a call. *)
Definition wrap_err {A} (w : error → error) (m : result A) : result A :=
  match m with Ok a => Ok a | Err e => Err (w e) | Hang => Hang end.

Definition is_Err {A} (m : result A) : Prop := ∃ e, m = Err e.

(** ** strconv.Atoi and the [%d] verbs *)

Definition digit_of (c : ascii) : option Z :=
  let b := byte_of c in
  if (48 <=? b) && (b <=? 57) then Some (b - 48) else None.

(** The digit loop of [strconv.ParseUint] in base 10 at 64 bits: a byte
    that is no digit is a syntax error, leaving the 64-bit unsigned range
    is a range error, whichever comes first. *)
Fixpoint ParseUint_go (s : gostring) (n : Z) : num_cause + Z :=
  match s with
  | [] => inr n
  | c :: s' =>
      match digit_of c with
      | None => inl ErrSyntax
      | Some d =>
          if MaxUint64 / 10 + 1 <=? n then inl ErrRange
          else
            let n1 := n * 10 + d in
            if MaxUint64 <? n1 then inl ErrRange else ParseUint_go s' n1
      end
  end.

(** [strconv.Atoi(s)]: an optional sign, then one or more decimal digits,
    the value within the 64-bit signed range. *)
Definition Atoi (s : gostring) : result Z :=
  match s with
  | [] => Err (ErrNum s ErrSyntax)
  | c :: s' =>
      let neg := bool_decide (c = ch "-") in
      let body := if bool_decide (c = ch "+") || neg then s' else s in
      match body with
      | [] => Err (ErrNum s ErrSyntax)
      | _ =>
          match ParseUint_go body 0 with
          | inl cause => Err (ErrNum s cause)
          | inr un =>
              if negb neg && (MaxInt64 + 1 <=? un) then Err (ErrNum s ErrRange)
              else if neg && (MaxInt64 + 1 <? un) then Err (ErrNum s ErrRange)
              else Ok (if neg then - un else un)
          end
      end
  end.

Definition digit_char (d : Z) : ascii := ascii_of_N (Z.to_N (48 + d)).

(** The digit loop of [fmt]'s integer formatting in base 10: digits are
    produced from the least significant one.  Twenty digits cover every
    64-bit value. *)
Fixpoint fmt_uint (fuel : nat) (u : Z) (acc : gostring) : gostring :=
  match fuel with
  | O => acc
  | S fuel' =>
      if u <? 10 then digit_char u :: acc
      else fmt_uint fuel' (u / 10) (digit_char (u mod 10) :: acc)
  end.

(** [fmt.Sprintf("%d", z)]. *)
Definition fmt_d (z : Z) : gostring :=
  if z <? 0 then ch "-" :: fmt_uint 20 (- z) [] else fmt_uint 20 z [].

(** [fmt.Sprintf("%02d", z)]: width two, padded with a zero (a sign and
    one digit already fill the width). *)
Definition fmt_02d (z : Z) : gostring :=
  let s := fmt_d z in
  if (length s <? 2)%nat then ch "0" :: s else s.

(** ** The [time] package: durations and instants *)

(** [time.Duration] counts nanoseconds in a 64-bit signed integer. *)
Module time.
Definition Duration := Z.
Definition Second : Duration := 1000000000.
Definition Minute : Duration := 60 * Second.
Definition Hour : Duration := 60 * Minute.
End time.

(** A [time.Time] as the matcher reads it, through its accessors
    [Month()], [Day()], [Weekday()], [Hour()], [Minute()], [Second()]. *)
Module Time.
Record t := mk {
  Month : Z;
  Day : Z;
  Weekday : Z;
  Hour : Z;
  Minute : Z;
  Second : Z
}.

(** The ranges the accessors of [time.Time] guarantee. *)
Definition wf (x : t) : Prop :=
  1 <= Month x <= 12 ∧ 1 <= Day x <= 31 ∧ 0 <= Weekday x <= 6 ∧
  0 <= Hour x <= 23 ∧ 0 <= Minute x <= 59 ∧ 0 <= Second x <= 59.

(** Seconds since midnight. *)
Definition seconds (x : t) : Z := Hour x * 3600 + Minute x * 60 + Second x.
End Time.

(** ** The data model of [rule.go] *)

Module Field.
Record t := mk {
  values : gmap Z bool;
  all : bool
}.

(** [func (f Field) matches(val int) bool]; indexing a Go map at a
    missing key gives [false]. *)
Definition matches (f : t) (val : Z) : bool :=
  all f || default false (values f !! val).

(** One entry of [ranges]: [%d] for a single value, [%d-%d] for a run. *)
Definition render (start prev : Z) : gostring :=
  if start =? prev then fmt_d start
  else fmt_d start ++ str "-" ++ fmt_d prev.

(** The loop [for i := 1; i < len(vals); i++] of [String], on the
    values after the first, with the variables [ranges], [start] and
    [prev] threaded through. *)
Fixpoint String_loop (vals : list Z) (ranges : list gostring)
    (start prev : Z) : list gostring * Z * Z :=
  match vals with
  | [] => (ranges, start, prev)
  | v :: vs =>
      if negb (v =? add64 prev 1)
      then String_loop vs (ranges ++ [render start prev]) v v
      else String_loop vs ranges start v
  end.

(** [func (f Field) String() string].  The keys are collected in the
    map's iteration order and then sorted, so the order of collection
    does not show. *)
Definition String (f : t) : gostring :=
  if all f then str "*"
  else
    let vals := merge_sort Z.le (map fst (map_to_list (values f))) in
    match vals with
    | [] => str "*"
    | v0 :: rest =>
        let '(ranges, start, prev) := String_loop rest [] v0 v0 in
        Join (ranges ++ [render start prev]) (str ",")
    end.
End Field.

Module TimeRange.
Record t := mk {
  start : time.Duration;
  end_ : time.Duration;
  all : bool;
  overnight : bool;
  hasSeconds : bool
}.

(** [func (tr TimeRange) String() string]; Go's [/] and [%] truncate
    toward zero. *)
Definition String (tr : t) : gostring :=
  if all tr then str "*"
  else
    let startH := start tr ÷ time.Hour in
    let startM := (start tr `rem` time.Hour) ÷ time.Minute in
    let startS := (start tr `rem` time.Minute) ÷ time.Second in
    let endH := end_ tr ÷ time.Hour in
    let endM := (end_ tr `rem` time.Hour) ÷ time.Minute in
    let endS := (end_ tr `rem` time.Minute) ÷ time.Second in
    if hasSeconds tr
    then fmt_02d startH ++ str ":" ++ fmt_02d startM ++ str ":" ++
         fmt_02d startS ++ str "-" ++
         fmt_02d endH ++ str ":" ++ fmt_02d endM ++ str ":" ++ fmt_02d endS
    else fmt_02d startH ++ str ":" ++ fmt_02d startM ++ str "-" ++
         fmt_02d endH ++ str ":" ++ fmt_02d endM.
End TimeRange.

Module Rule.
Record t := mk {
  timeRange : TimeRange.t;
  dow : Field.t;
  dom : Field.t;
  month : Field.t
}.

(** [func (r Rule) matches(t time.Time) bool]. *)
Definition matches (r : t) (t : Time.t) : bool :=
  if negb (Field.matches (month r) (Time.Month t)) then false
  else if negb (Field.matches (dom r) (Time.Day t)) then false
  else if negb (Field.matches (dow r) (Time.Weekday t)) then false
  else if TimeRange.all (timeRange r) then true
  else
    let currentTime :=
      add64 (add64 (mul64 (Time.Hour t) time.Hour)
                   (mul64 (Time.Minute t) time.Minute))
            (mul64 (Time.Second t) time.Second) in
    if TimeRange.overnight (timeRange r)
    then (TimeRange.start (timeRange r) <=? currentTime) ||
         (currentTime <=? TimeRange.end_ (timeRange r))
    else (TimeRange.start (timeRange r) <=? currentTime) &&
         (currentTime <=? TimeRange.end_ (timeRange r)).

(** [func (r Rule) String() string]: [%s %s %s %s]. *)
Definition String (r : t) : gostring :=
  TimeRange.String (timeRange r) ++ str " " ++ Field.String (dow r) ++
  str " " ++ Field.String (dom r) ++ str " " ++ Field.String (month r).
End Rule.

(** ** The parsers of [rule.go] *)

(** [func parseTime(s string) (time.Duration, bool, error)].  The length
    test on [parts] and the later indexing are written as one match on the
    two shapes that pass it. *)
Definition parseTime (s : gostring) : result (time.Duration * bool) :=
  let parts := Split s (ch ":") in
  let finish (hours minutes seconds : Z) (hasSeconds : bool) :=
    if (hours <? 0) || (23 <? hours) || (minutes <? 0) || (59 <? minutes) ||
       (seconds <? 0) || (59 <? seconds)
    then Err ErrTimeValues
    else Ok (add64 (add64 (mul64 hours time.Hour) (mul64 minutes time.Minute))
                   (mul64 seconds time.Second), hasSeconds) in
  match parts with
  | [p0; p1] =>
      hours ← Atoi p0;
      minutes ← Atoi p1;
      finish hours minutes 0 false
  | [p0; p1; p2] =>
      hours ← Atoi p0;
      minutes ← Atoi p1;
      seconds ← Atoi p2;
      finish hours minutes seconds true
  | _ => Err ErrTimeFormat
  end.

(** [func parseTimeRange(s string) (TimeRange, error)]. *)
Definition parseTimeRange (s : gostring) : result TimeRange.t :=
  if bool_decide (s = str "*")
  then Ok (TimeRange.mk 0 0 true false false)
  else
    match Split s (ch "-") with
    | [p0; p1] =>
        '(start, hasStartSeconds) ← parseTime p0;
        '(end_, hasEndSeconds) ← parseTime p1;
        let overnight := end_ <? start in
        Ok (TimeRange.mk start end_ false overnight
              (hasStartSeconds || hasEndSeconds))
    | _ => Err ErrTimeRangeFormat
    end.

(** The loop [for i := start; i <= end; i++ { values[i] = true }].  The
    increment wraps at 64 bits, so with [end = MaxInt64] the test never
    fails; [None] stands for a loop that is still running when the fuel is
    spent. *)
Fixpoint range_loop (fuel : nat) (i end_ : Z) (values : gmap Z bool)
  : option (gmap Z bool) :=
  match fuel with
  | O => None
  | S fuel' =>
      if i <=? end_
      then range_loop fuel' (add64 i 1) end_ (<[i := true]> values)
      else Some values
  end.

(** The body of the loop over [ranges] in [parseField].  The fuel given
    to the range loop is enough whenever it terminates at all
    ([range_loop_exits], [range_loop_never_exits]). *)
Definition parseField_item (r : gostring) (min max : Z)
    (values : gmap Z bool) : result (gmap Z bool) :=
  if Contains r (ch "-") then
    match Split r (ch "-") with
    | [p0; p1] =>
        start ← Atoi p0;
        end_ ← Atoi p1;
        if (start <? min) || (max <? end_) || (end_ <? start)
        then Err ErrValuesOutOfRange
        else match range_loop (Z.to_nat (end_ - start + 2)) start end_ values with
             | Some values' => Ok values'
             | None => Hang
             end
    | _ => Err ErrRangeFormat
    end
  else
    val ← Atoi r;
    if (val <? min) || (max <? val) then Err ErrValueOutOfRange
    else Ok (<[val := true]> values).

Fixpoint parseField_loop (ranges : list gostring) (min max : Z)
    (values : gmap Z bool) : result (gmap Z bool) :=
  match ranges with
  | [] => Ok values
  | r :: rs =>
      values' ← parseField_item r min max values;
      parseField_loop rs min max values'
  end.

(** [func parseField(s string, min, max int) (Field, error)]. *)
Definition parseField (s : gostring) (min max : Z) : result Field.t :=
  if bool_decide (s = str "*") then Ok (Field.mk ∅ true)
  else
    values ← parseField_loop (Split s (ch ",")) min max ∅;
    Ok (Field.mk values false).

(** [func parseRule(rule string) (Rule, error)]. *)
Definition parseRule (rule : gostring) : result Rule.t :=
  match Fields rule with
  | [p0; p1; p2; p3] =>
      timeRange ← parseTimeRange p0;
      dow ← wrap_err ErrInvalidDow (parseField p1 0 6);
      dom ← wrap_err ErrInvalidDom (parseField p2 1 31);
      month ← wrap_err ErrInvalidMonth (parseField p3 1 12);
      Ok (Rule.mk timeRange dow dom month)
  | _ => Err ErrFieldCount
  end.

(** ** [cronrange.go] *)

(** The loop of [Parse] over the segments; [res] is the slice [result]
    of the source. *)
Fixpoint Parse_loop (rules : list gostring) (res : list Rule.t)
  : result (list Rule.t) :=
  match rules with
  | [] => Ok res
  | r :: rs =>
      rule ← wrap_err (ErrInvalidRule r) (parseRule (TrimSpace r));
      Parse_loop rs (res ++ [rule])
  end.

(** [func Parse(expr string) ([]Rule, error)]. *)
Definition Parse (expr : gostring) : result (list Rule.t) :=
  Parse_loop (Split expr (ch ";")) [].

(** [func Match(rules []Rule, t time.Time) bool]. *)
Fixpoint Match (rules : list Rule.t) (t : Time.t) : bool :=
  match rules with
  | [] => false
  | rule :: rs => if Rule.matches rule t then true else Match rs t
  end.

(** The rendering the tests compare against: each Rule through
    [Rule.String], joined by [; ]. *)
Definition format (rules : list Rule.t) : gostring :=
  Join (map Rule.String rules) (str "; ").

(** *** The line scanner of [ParseFromReader] *)

(** [bufio.MaxScanTokenSize]: the scanner's buffer never grows beyond it. *)
Definition MaxScanTokenSize : nat := Z.to_nat 65536.

Definition LF : ascii := ascii_of_nat 10.
Definition CR : ascii := ascii_of_nat 13.

(** Index of the first newline byte. *)
Fixpoint IndexByte_nl (data : gostring) : option nat :=
  match data with
  | [] => None
  | c :: data' =>
      if bool_decide (c = LF) then Some 0%nat
      else S <$> IndexByte_nl data'
  end.

(** [dropCR] of [bufio.ScanLines]: one trailing carriage return goes. *)
Definition dropCR (data : gostring) : gostring :=
  match reverse data with
  | c :: r => if bool_decide (c = CR) then reverse r else data
  | [] => data
  end.

(** [bufio.Scanner] with the default split function [ScanLines] over the
    bytes [data]: the lines that [Scan] yields, in order, and the error
    [Err()] reports afterwards.  A line is cut at each newline, the final
    line may lack one.  The scanner holds a line in a buffer of at most
    [MaxScanTokenSize] bytes and asks for more input while the buffer
    shows no newline; once the full buffer shows none, scanning stops with
    [ErrTooLong]. *)
Fixpoint scan_lines (fuel : nat) (data : gostring)
  : list gostring * option error :=
  match fuel with
  | O => ([], None)
  | S fuel' =>
      match data with
      | [] => ([], None)
      | _ =>
          match IndexByte_nl data with
          | Some i =>
              if (i <? MaxScanTokenSize)%nat
              then let '(lines, e) := scan_lines fuel' (drop (S i) data) in
                   (dropCR (take i data) :: lines, e)
              else ([], Some ErrTooLong)
          | None =>
              if (length data <? MaxScanTokenSize)%nat
              then ([dropCR data], None)
              else ([], Some ErrTooLong)
          end
      end
  end.

(** The body of [for scanner.Scan()], over the lines the scanner yields. *)
Fixpoint ParseFromReader_loop (lines : list gostring) (res : list Rule.t)
  : result (list Rule.t) :=
  match lines with
  | [] => Ok res
  | line :: rest =>
      let rule := TrimSpace line in
      if bool_decide (rule = [])
      then ParseFromReader_loop rest res
      else
        r ← wrap_err (ErrInvalidRule rule) (Parse rule);
        ParseFromReader_loop rest (res ++ r)
  end.

(** [func ParseFromReader(rdr io.Reader) ([]Rule, error)]; the reader is
    given by what [io.ReadAll] gets from it. *)
Definition ParseFromReader (rdr : result gostring) : result (list Rule.t) :=
  buf ← wrap_err ErrCantRead rdr;
  if bool_decide (length buf = 0%nat) then Ok []
  else
    let '(lines, scanErr) := scan_lines (length buf) buf in
    res ← ParseFromReader_loop lines [];
    match scanErr with
    | Some e => Err (ErrReadInput e)
    | None => Ok res
    end.

(** * Notions used in the statements *)

(** The time of day a token denotes: hours, minutes, seconds within their
    ranges, read from two or three colon-separated integers. *)
Definition time_token (p : gostring) (h m s : Z) (hasSeconds : bool) : Prop :=
  0 <= h <= 23 ∧ 0 <= m <= 59 ∧ 0 <= s <= 59 ∧
  ((hasSeconds = false ∧ s = 0 ∧
    ∃ ph pm, Split p (ch ":") = [ph; pm] ∧ Atoi ph = Ok h ∧ Atoi pm = Ok m) ∨
   (hasSeconds = true ∧
    ∃ ph pm ps, Split p (ch ":") = [ph; pm; ps] ∧
                Atoi ph = Ok h ∧ Atoi pm = Ok m ∧ Atoi ps = Ok s)).

(** A time range as the parser builds it. *)
Definition parsed_TimeRange (tr : TimeRange.t) : Prop :=
  (tr = TimeRange.mk 0 0 true false false) ∨
  ∃ a b, 0 <= a < 86400 ∧ 0 <= b < 86400 ∧
    TimeRange.start tr = a * time.Second ∧
    TimeRange.end_ tr = b * time.Second ∧
    TimeRange.all tr = false ∧
    TimeRange.overnight tr = (b <? a) ∧
    (TimeRange.hasSeconds tr = false → a `mod` 60 = 0 ∧ b `mod` 60 = 0).

(** A Field admits [x]: it is the all-values Field, or [x] is in its
    explicit set. *)
Definition field_holds (f : Field.t) (x : Z) : Prop :=
  Field.all f = true ∨ Field.values f !! x = Some true.

(** A TimeRange with boundaries [a] and [b] (seconds since midnight)
    admits the time of day [v]. *)
Definition timeRange_holds (tr : TimeRange.t) (a b v : Z) : Prop :=
  TimeRange.all tr = true ∨
  (TimeRange.all tr = false ∧
   ((b < a ∧ (a <= v ∨ v <= b)) ∨ (a <= b ∧ a <= v <= b))).

(** The integers an item of a bounded field denotes: the one it spells,
    or those between the two it spells around its dash. *)
Definition item_denotes (r : gostring) (k : Z) : Prop :=
  ((ch "-" ∉ r) ∧ Atoi r = Ok k) ∨
  (∃ pa pb a b, r = pa ++ ch "-" :: pb ∧ (ch "-" ∉ pa) ∧ (ch "-" ∉ pb) ∧
                Atoi pa = Ok a ∧ Atoi pb = Ok b ∧ a <= k <= b).

(** The integers a bounded-field token denotes: every one for the
    asterisk, else those of its comma-separated items. *)
Definition token_denotes (s : gostring) (k : Z) : Prop :=
  s = str "*" ∨ ∃ r, r ∈ Split s (ch ",") ∧ item_denotes r k.

(** The value maps the parser builds for bounds [min], [max]: every key
    is set to [true], is not negative and lies within the bounds. *)
Definition parsed_values (min max : Z) (m : gmap Z bool) : Prop :=
  ∀ k x, m !! k = Some x → x = true ∧ 0 <= k ∧ min <= k <= max ∧ k <= MaxInt64.

(** The lines of a text: the pieces between newlines, without the empty
    piece after a final newline. *)
Fixpoint drop_last_empty (ps : list gostring) : list gostring :=
  match ps with
  | [] => []
  | [p] => match p with [] => [] | _ => [p] end
  | p :: ps' => p :: drop_last_empty ps'
  end.

Definition text_lines (data : gostring) : list gostring :=
  drop_last_empty (Split data LF).

(** The expressions of a text: its lines without a trailing carriage
    return, trimmed, the blank ones left out. *)
Definition expressions (data : gostring) : list gostring :=
  filter (λ e, e ≠ []) (map (λ l, TrimSpace (dropCR l)) (text_lines data)).

(** Strings over an alphabet. *)
Definition over (alphabet : string) (s : gostring) : Prop :=
  Forall (λ c, c ∈ str alphabet) s.

(** The runs of consecutive integers in [start; ..; prev] followed by
    [vals], as pairs of first and last value. *)
Fixpoint runs (vals : list Z) (start prev : Z) : list (Z * Z) :=
  match vals with
  | [] => [(start, prev)]
  | v :: vs =>
      if v =? prev + 1 then runs vs start v
      else (start, prev) :: runs vs v v
  end.

(** Two runs with a gap between them: the second starts beyond the value
    after the end of the first. *)
Definition run_gap (r1 r2 : Z * Z) : Prop := r1.2 + 1 < r2.1.

(** * Properties *)

(** ** Machine arithmetic stays exact on the values the package meets *)

Lemma wrap64_id z : MinInt64 <= z <= MaxInt64 → wrap64 z = z.
Proof.
  unfold MinInt64, MaxInt64, wrap64. intros Hz.
  rewrite Z.mod_small; lia.
Qed.

Lemma time_of_day_exact h m s :
  0 <= h <= 23 → 0 <= m <= 59 → 0 <= s <= 59 →
  add64 (add64 (mul64 h time.Hour) (mul64 m time.Minute)) (mul64 s time.Second)
  = (h * 3600 + m * 60 + s) * time.Second.
Proof.
  intros Hh Hm Hs. unfold add64, mul64, time.Hour, time.Minute, time.Second.
  rewrite (wrap64_id (h * _)) by (unfold MinInt64, MaxInt64; lia).
  rewrite (wrap64_id (m * _)) by (unfold MinInt64, MaxInt64; lia).
  rewrite (wrap64_id (s * _)) by (unfold MinInt64, MaxInt64; lia).
  rewrite (wrap64_id (h * _ + _)) by (unfold MinInt64, MaxInt64; lia).
  rewrite wrap64_id by (unfold MinInt64, MaxInt64; lia).
  lia.
Qed.

(** ** Results *)

Lemma bind_Ok {A B} (m : result A) (k : A → result B) b :
  m ≫= k = Ok b → ∃ a, m = Ok a ∧ k a = Ok b.
Proof. destruct m; simpl; intros H; try discriminate. eauto. Qed.

(** Closed decidable goals, by evaluation. *)
Ltac by_decide := apply (bool_decide_unpack _); vm_compute; exact I.

Ltac inv_bind H :=
  let a := fresh "a" in
  let Ha := fresh "Ha" in
  apply bind_Ok in H as (a & Ha & H).

Lemma wrap_err_Ok {A} w (m : result A) a : wrap_err w m = Ok a → m = Ok a.
Proof. destruct m; simpl; congruence. Qed.

Lemma not_Err_Ok {A} (a : A) : ¬ is_Err (Ok a).
Proof. intros [e He]. discriminate. Qed.

Lemma not_Err_Hang {A} : ¬ is_Err (@Hang A).
Proof. intros [e He]. discriminate. Qed.

Lemma is_Err_Err {A} e : is_Err (@Err A e).
Proof. by exists e. Qed.

Global Hint Resolve is_Err_Err : core.

(** ** Match *)

Lemma Match_exists rs t :
  Match rs t = true ↔ ∃ r, r ∈ rs ∧ Rule.matches r t = true.
Proof.
  induction rs as [|r rs IH]; simpl.
  - split; [discriminate|]. intros (r & Hr & _). by apply elem_of_nil in Hr.
  - destruct (Rule.matches r t) eqn:Hm.
    + split; [|done]. intros _. exists r. split; [left|done].
    + rewrite IH. split.
      * intros (r' & Hin & Hr'). exists r'. split; [by right|done].
      * intros (r' & Hin & Hr'). apply elem_of_cons in Hin as [->|Hin].
        -- congruence.
        -- by exists r'.
Qed.

(** ** What a successful parse tells about its result *)

Lemma parseTime_finish (h m s : Z) (hs : bool) (d : Z) :
  (if (h <? 0) || (23 <? h) || (m <? 0) || (59 <? m) || (s <? 0) || (59 <? s)
   then Err ErrTimeValues
   else Ok (add64 (add64 (mul64 h time.Hour) (mul64 m time.Minute))
                  (mul64 s time.Second), hs)) = Ok (d, hs) →
  0 <= h <= 23 ∧ 0 <= m <= 59 ∧ 0 <= s <= 59 ∧
  d = (h * 3600 + m * 60 + s) * time.Second.
Proof.
  destruct (_ || _) eqn:Hc; [discriminate|].
  repeat (apply orb_false_elim in Hc as [Hc ?]).
  intros [= <-]. rewrite time_of_day_exact by lia. lia.
Qed.

Lemma parseTime_Ok p d hs :
  parseTime p = Ok (d, hs) →
  ∃ h m s, time_token p h m s hs ∧ d = (h * 3600 + m * 60 + s) * time.Second.
Proof.
  unfold parseTime.
  destruct (Split p (ch ":")) as [|p0 [|p1 [|p2 [|]]]] eqn:Hsp;
    try discriminate; intros H.
  - inv_bind H. inv_bind H.
    assert (hs = false) as -> by (destruct (_ || _); [discriminate|congruence]).
    apply parseTime_finish in H as (? & ? & ? & ->).
    exists a, a0, 0. split; [|done].
    unfold time_token. repeat split; try lia. left. eauto 10.
  - inv_bind H. inv_bind H. inv_bind H.
    assert (hs = true) as -> by (destruct (_ || _); [discriminate|congruence]).
    apply parseTime_finish in H as (? & ? & ? & ->).
    exists a, a0, a1. split; [|done].
    unfold time_token. repeat split; try lia. right. eauto 10.
Qed.

Lemma parseTime_complete p h m s hs :
  time_token p h m s hs →
  parseTime p = Ok ((h * 3600 + m * 60 + s) * time.Second, hs).
Proof.
  intros (Hh & Hm & Hs & [(-> & -> & ph & pm & Hsp & Ha & Hb)
                         |(-> & ph & pm & ps & Hsp & Ha & Hb & Hc)]);
    unfold parseTime; rewrite Hsp, Ha; simpl; rewrite Hb; simpl;
    [|rewrite Hc; simpl];
    (destruct (_ || _) eqn:Hcond;
     [repeat (apply orb_prop in Hcond as [Hcond|Hcond]); lia
     |by rewrite time_of_day_exact by lia]).
Qed.

Lemma parseTimeRange_Ok p tr :
  parseTimeRange p = Ok tr →
  (p = str "*" ∧ tr = TimeRange.mk 0 0 true false false) ∨
  (p ≠ str "*" ∧
   ∃ p0 p1 h0 m0 s0 hs0 h1 m1 s1 hs1,
     Split p (ch "-") = [p0; p1] ∧
     time_token p0 h0 m0 s0 hs0 ∧ time_token p1 h1 m1 s1 hs1 ∧
     tr = TimeRange.mk ((h0 * 3600 + m0 * 60 + s0) * time.Second)
                       ((h1 * 3600 + m1 * 60 + s1) * time.Second)
                       false
                       ((h1 * 3600 + m1 * 60 + s1) * time.Second <?
                        (h0 * 3600 + m0 * 60 + s0) * time.Second)
                       (hs0 || hs1)).
Proof.
  unfold parseTimeRange. case_bool_decide as Hstar.
  - intros [= <-]. by left.
  - destruct (Split p (ch "-")) as [|p0 [|p1 [|]]] eqn:Hsp; try discriminate.
    intros H. right. split; [done|].
    inv_bind H. destruct a as [d0 hs0]. inv_bind H. destruct a as [d1 hs1].
    injection H as <-.
    apply parseTime_Ok in Ha as (h0 & m0 & s0 & Ht0 & ->).
    apply parseTime_Ok in Ha0 as (h1 & m1 & s1 & Ht1 & ->).
    exists p0, p1, h0, m0, s0, hs0, h1, m1, s1, hs1. done.
Qed.

Lemma parseTimeRange_parsed p tr :
  parseTimeRange p = Ok tr → parsed_TimeRange tr.
Proof.
  intros [[_ ->]|(_ & p0 & p1 & h0 & m0 & s0 & hs0 & h1 & m1 & s1 & hs1 &
                  _ & Ht0 & Ht1 & ->)]%parseTimeRange_Ok; [by left|right].
  exists (h0 * 3600 + m0 * 60 + s0), (h1 * 3600 + m1 * 60 + s1).
  destruct Ht0 as (? & ? & ? & Hs0), Ht1 as (? & ? & ? & Hs1). simpl.
  split_and!; try lia; try done.
  - unfold time.Second.
    destruct (Z.ltb_spec ((h1 * 3600 + m1 * 60 + s1) * 1000000000)
                         ((h0 * 3600 + m0 * 60 + s0) * 1000000000));
      symmetry; [apply Z.ltb_lt|apply Z.ltb_ge]; lia.
  - intros [-> ->]%orb_false_elim.
    destruct Hs0 as [(_ & -> & _)|[? _]]; [|done].
    destruct Hs1 as [(_ & -> & _)|[? _]]; [|done].
    rewrite !Z.add_0_r.
    replace (h0 * 3600 + m0 * 60) with ((h0 * 60 + m0) * 60) by lia.
    replace (h1 * 3600 + m1 * 60) with ((h1 * 60 + m1) * 60) by lia.
    split; apply Z.mod_mul; lia.
Qed.

Lemma parseRule_Ok s r :
  parseRule s = Ok r →
  ∃ p0 p1 p2 p3, Fields s = [p0; p1; p2; p3] ∧
    parseTimeRange p0 = Ok (Rule.timeRange r) ∧
    parseField p1 0 6 = Ok (Rule.dow r) ∧
    parseField p2 1 31 = Ok (Rule.dom r) ∧
    parseField p3 1 12 = Ok (Rule.month r).
Proof.
  unfold parseRule.
  destruct (Fields s) as [|p0 [|p1 [|p2 [|p3 [|]]]]]; try discriminate.
  intros H. do 4 inv_bind H. injection H as <-. simpl.
  apply wrap_err_Ok in Ha0, Ha1, Ha2. eauto 10.
Qed.

(** ** The matcher *)

Lemma Field_matches_holds f x : Field.matches f x = true ↔ field_holds f x.
Proof.
  unfold Field.matches, field_holds. rewrite orb_true_iff.
  destruct (Field.values f !! x) as [[]|]; simpl; intuition congruence.
Qed.

(** C1: for a parsed Rule and an instant, [matches] is the conjunction of
    the month, day-of-month and day-of-week Field tests and the TimeRange
    test; a Field admits by its all flag or by membership, a TimeRange is
    all-day, or overnight ([b < a]: [v >= a] or [v <= b]), or ordinary
    ([a <= v <= b]), with [v] the seconds since midnight and inclusive
    boundaries throughout. *)
Theorem C1_matches_is_conjunction s r t :
  parseRule s = Ok r → Time.wf t →
  ∃ a b,
    TimeRange.start (Rule.timeRange r) = a * time.Second ∧
    TimeRange.end_ (Rule.timeRange r) = b * time.Second ∧
    TimeRange.overnight (Rule.timeRange r) = (b <? a) ∧
    (Rule.matches r t = true ↔
       field_holds (Rule.month r) (Time.Month t) ∧
       field_holds (Rule.dom r) (Time.Day t) ∧
       field_holds (Rule.dow r) (Time.Weekday t) ∧
       timeRange_holds (Rule.timeRange r) a b (Time.seconds t)).
Proof.
  intros (p0 & _ & _ & _ & _ & Htr & _)%parseRule_Ok
         (_ & _ & _ & Hh & Hm & Hs).
  apply parseTimeRange_parsed in Htr.
  assert (∃ a b, TimeRange.start (Rule.timeRange r) = a * time.Second ∧
                 TimeRange.end_ (Rule.timeRange r) = b * time.Second ∧
                 TimeRange.overnight (Rule.timeRange r) = (b <? a))
    as (a & b & Ha & Hb & Ho).
  { destruct Htr as [->|(a & b & _ & _ & ? & ? & _ & ? & _)]; [by exists 0, 0|].
    by exists a, b. }
  exists a, b. split_and!; try done.
  unfold Rule.matches, timeRange_holds.
  rewrite <- !Field_matches_holds.
  destruct (Field.matches (Rule.month r) _); simpl; [|intuition discriminate].
  destruct (Field.matches (Rule.dom r) _); simpl; [|intuition discriminate].
  destruct (Field.matches (Rule.dow r) _); simpl; [|intuition discriminate].
  destruct (TimeRange.all (Rule.timeRange r)); [intuition auto|].
  rewrite time_of_day_exact by done. fold (Time.seconds t).
  rewrite Ha, Hb, Ho. unfold time.Second.
  destruct (Z.ltb_spec b a).
  - rewrite orb_true_iff, !Z.leb_le. split.
    + intros Hv. split_and!; try done. right. split; [done|]. left. lia.
    + intros (_ & _ & _ & [?|[_ [?|?]]]); [done|lia..].
  - rewrite andb_true_iff, !Z.leb_le. split.
    + intros Hv. split_and!; try done. right. split; [done|]. right. lia.
    + intros (_ & _ & _ & [?|[_ [?|?]]]); [done|lia..].
Qed.

(** C3: [Match] answers whether some Rule of the list matches; the empty
    list matches nothing, and the order of the Rules does not show. *)
Theorem C3_Match_is_disjunction rs t :
  (Match rs t = true ↔ ∃ r, r ∈ rs ∧ Rule.matches r t = true) ∧
  Match [] t = false ∧
  (∀ rs', rs ≡ₚ rs' → Match rs' t = Match rs t).
Proof.
  split_and!; [apply Match_exists|done|].
  intros rs' Hp. apply eq_true_iff_eq. rewrite !Match_exists.
  by setoid_rewrite Hp.
Qed.

(** C2: matching works at seconds resolution with inclusive boundaries.
    For the rule of [09:00-17:00 * * *], 08:59:59 and 17:00:01 are out,
    09:00:00 and 17:00:00 are in; for the rule of [23:00-02:00 * * *],
    22:59:59 and 02:00:01 are out, 23:00:00, 00:00:00, 01:30:00 and
    02:00:00 are in; on every date. *)
Theorem C2_inclusive_boundaries :
  ∃ day night,
    Parse (str "09:00-17:00 * * *") = Ok [day] ∧
    Parse (str "23:00-02:00 * * *") = Ok [night] ∧
    ∀ mo d wd,
      Match [day] (Time.mk mo d wd 8 59 59) = false ∧
      Match [day] (Time.mk mo d wd 17 0 1) = false ∧
      Match [day] (Time.mk mo d wd 9 0 0) = true ∧
      Match [day] (Time.mk mo d wd 17 0 0) = true ∧
      Match [night] (Time.mk mo d wd 22 59 59) = false ∧
      Match [night] (Time.mk mo d wd 2 0 1) = false ∧
      Match [night] (Time.mk mo d wd 23 0 0) = true ∧
      Match [night] (Time.mk mo d wd 0 0 0) = true ∧
      Match [night] (Time.mk mo d wd 1 30 0) = true ∧
      Match [night] (Time.mk mo d wd 2 0 0) = true.
Proof.
  do 2 eexists. split; [vm_compute; reflexivity|].
  split; [vm_compute; reflexivity|].
  intros mo d wd. split_and!; reflexivity.
Qed.

(** C8: [parseRule] succeeds only on a segment of exactly four
    white-space separated tokens, read as time, dow, dom, month in that
    order; every other count, such as the three tokens of
    [17:20-21:35 1-5 *] or the none of the empty segment, is the
    field-count error. *)
Theorem C8_four_fields s :
  (length (Fields s) ≠ 4%nat → parseRule s = Err ErrFieldCount) ∧
  (∀ r, parseRule s = Ok r →
     ∃ p0 p1 p2 p3, Fields s = [p0; p1; p2; p3] ∧
       parseTimeRange p0 = Ok (Rule.timeRange r) ∧
       parseField p1 0 6 = Ok (Rule.dow r) ∧
       parseField p2 1 31 = Ok (Rule.dom r) ∧
       parseField p3 1 12 = Ok (Rule.month r)) ∧
  parseRule (str "17:20-21:35 1-5 *") = Err ErrFieldCount ∧
  parseRule (str "") = Err ErrFieldCount.
Proof.
  split_and!; [|apply parseRule_Ok|reflexivity..].
  unfold parseRule.
  by destruct (Fields s) as [|p0 [|p1 [|p2 [|p3 [|]]]]].
Qed.

(** ** Split, Join and Contains *)

Lemma Split_nonempty s sep : Split s sep ≠ [].
Proof.
  destruct s as [|c s]; simpl; [done|].
  case_bool_decide; [done|]. by destruct (Split s sep).
Qed.

Lemma Split_nosep s sep : sep ∉ s → Split s sep = [s].
Proof.
  induction s as [|c s IH]; simpl; [done|].
  intros [Hc Hs]%not_elem_of_cons.
  rewrite bool_decide_eq_false_2 by done. by rewrite IH.
Qed.

Lemma Split_app_sep a b sep :
  sep ∉ a → Split (a ++ sep :: b) sep = a :: Split b sep.
Proof.
  induction a as [|c a IH]; simpl.
  - intros _. by rewrite bool_decide_eq_true_2.
  - intros [Hc Ha]%not_elem_of_cons.
    rewrite bool_decide_eq_false_2 by done. by rewrite IH.
Qed.

Lemma Split_pieces s sep : Forall (λ p, sep ∉ p) (Split s sep).
Proof.
  induction s as [|c s IH]; simpl.
  - repeat constructor. apply not_elem_of_nil.
  - case_bool_decide as Hc.
    + constructor; [apply not_elem_of_nil|done].
    + destruct (Split s sep) as [|p ps].
      * repeat constructor. rewrite list_elem_of_singleton. congruence.
      * apply Forall_cons in IH as [Hp Hps]. constructor; [|done].
        rewrite not_elem_of_cons. split; [congruence|done].
Qed.

Lemma Join_Split s sep : Join (Split s sep) [sep] = s.
Proof.
  induction s as [|c s IH]; simpl; [done|].
  pose proof (Split_nonempty s sep) as Hne.
  case_bool_decide as Hc.
  - subst c. destruct (Split s sep) as [|p ps]; [done|]. simpl in *.
    by rewrite IH.
  - destruct (Split s sep) as [|p ps]; [done|].
    destruct ps; simpl in *; by rewrite <- IH.
Qed.

Lemma Split_two s sep pa pb :
  Split s sep = [pa; pb] → s = pa ++ sep :: pb ∧ (sep ∉ pa) ∧ (sep ∉ pb).
Proof.
  intros Hsp. pose proof (Join_Split s sep) as Hj.
  pose proof (Split_pieces s sep) as Hp. rewrite Hsp in Hj, Hp.
  apply Forall_cons in Hp as [Ha Hp]. apply Forall_cons in Hp as [Hb _].
  done.
Qed.

Lemma Split_Join l sep :
  l ≠ [] → Forall (λ p, sep ∉ p) l → Split (Join l [sep]) sep = l.
Proof.
  induction l as [|e l IH]; [done|]. intros _ [He Hl]%Forall_cons.
  destruct l as [|e' l].
  - simpl. by apply Split_nosep.
  - change (Join (e :: e' :: l) [sep]) with (e ++ sep :: Join (e' :: l) [sep]).
    rewrite Split_app_sep by done. by rewrite IH.
Qed.

Lemma Contains_true s sep : Contains s sep = true ↔ sep ∈ s.
Proof. unfold Contains. apply bool_decide_eq_true. Qed.

Lemma Contains_false s sep : Contains s sep = false ↔ sep ∉ s.
Proof. unfold Contains. apply bool_decide_eq_false. Qed.

(** ** Atoi *)

Lemma wrap64_range z : MinInt64 <= wrap64 z <= MaxInt64.
Proof.
  unfold wrap64, MinInt64, MaxInt64.
  pose proof (Z.mod_pos_bound (z + 2 ^ 63) (2 ^ 64)). lia.
Qed.

Lemma digit_of_range c d : digit_of c = Some d → 0 <= d <= 9.
Proof.
  unfold digit_of. destruct (_ && _) eqn:Hc; [|discriminate].
  apply andb_prop in Hc as [?%Z.leb_le ?%Z.leb_le]. intros [= <-]. lia.
Qed.

Lemma ParseUint_go_bounds s n u :
  0 <= n → ParseUint_go s n = inr u → n <= u <= MaxUint64 ∨ (s = [] ∧ u = n).
Proof.
  revert n. induction s as [|c s IH]; simpl; intros n Hn.
  - intros [= <-]. by right.
  - destruct (digit_of c) as [d|] eqn:Hd; [|discriminate].
    apply digit_of_range in Hd.
    destruct (_ <=? n) eqn:Hcut; [discriminate|].
    destruct (MaxUint64 <? _) eqn:Hmax; [discriminate|].
    apply Z.ltb_ge in Hmax. intros Hgo.
    apply IH in Hgo; [|lia]. destruct Hgo as [?|[-> ->]]; left; lia.
Qed.

Ltac Atoi_body s c :=
  match goal with
  | |- context [if ?b then s else c :: s] =>
      let Hbody := fresh "Hbody" in
      destruct (if b then s else c :: s) eqn:Hbody
  end.

Lemma Atoi_not_Hang s : Atoi s ≠ Hang.
Proof.
  unfold Atoi. destruct s as [|c s]; [done|].
  Atoi_body s c; [done|].
  destruct (ParseUint_go _ _); [done|].
  by repeat destruct (_ && _).
Qed.

Lemma Atoi_Ok_or_Err s : (∃ z, Atoi s = Ok z) ∨ is_Err (Atoi s).
Proof.
  pose proof (Atoi_not_Hang s). destruct (Atoi s); [eauto|eauto|done].
Qed.

Lemma Atoi_range s z : Atoi s = Ok z → MinInt64 <= z <= MaxInt64.
Proof.
  unfold Atoi. destruct s as [|c s]; [done|].
  Atoi_body s c; [done|].
  destruct (ParseUint_go _ _) as [|un] eqn:Hgo; [done|].
  apply ParseUint_go_bounds in Hgo as [Hun|[? _]]; [|done|done].
  destruct (bool_decide (c = ch "-")); simpl.
  - destruct (_ <? un) eqn:Hlt; [done|]. apply Z.ltb_ge in Hlt.
    intros [= <-]. unfold MinInt64, MaxInt64 in *. lia.
  - destruct (_ <=? un) eqn:Hle; [done|]. apply Z.leb_gt in Hle.
    intros [= <-]. unfold MinInt64, MaxInt64 in *. lia.
Qed.

Lemma Atoi_nodash_nonneg s z : ch "-" ∉ s → Atoi s = Ok z → 0 <= z.
Proof.
  unfold Atoi. destruct s as [|c s]; [done|].
  intros [Hc _]%not_elem_of_cons.
  rewrite (bool_decide_eq_false_2 (c = ch "-")) by done.
  Atoi_body s c; [done|].
  destruct (ParseUint_go _ _) as [|un] eqn:Hgo; [done|].
  apply ParseUint_go_bounds in Hgo as [Hun|[? _]]; [|done|done].
  simpl. destruct (_ <=? un); [done|]. intros [= <-]. lia.
Qed.

(** ** The range loop *)

(** Below the largest integer the loop ends, having set every key of
    [i..e]. *)
Lemma range_loop_exits fuel i e (values : gmap Z bool) :
  MinInt64 <= i → e < MaxInt64 → i <= e + 1 →
  (Z.to_nat (e + 1 - i) < fuel)%nat →
  ∃ values', range_loop fuel i e values = Some values' ∧
    ∀ k, values' !! k =
         if bool_decide (i <= k <= e) then Some true else values !! k.
Proof.
  revert i values. induction fuel as [|fuel IH]; intros i values Hi He Hie Hf;
    [lia|]. simpl.
  destruct (Z.leb_spec i e) as [Hle|Hgt].
  - unfold add64. rewrite wrap64_id by (unfold MinInt64, MaxInt64 in *; lia).
    destruct (IH (i + 1) (<[i := true]> values)) as (values' & Hrun & Hlook);
      [unfold MinInt64 in *; lia|done|lia|lia|].
    exists values'. split; [done|]. intros k. rewrite Hlook.
    destruct (decide (k = i)) as [->|Hk].
    + rewrite lookup_insert_eq.
      rewrite (bool_decide_eq_true_2 (i <= i <= e)) by lia.
      by case_bool_decide.
    + rewrite lookup_insert_ne by done.
      repeat case_bool_decide; try done; lia.
  - exists values. split; [done|]. intros k.
    rewrite bool_decide_eq_false_2; [done|lia].
Qed.

(** Up to the largest integer the test [i <= end] never fails: no amount
    of fuel lets the loop end. *)
Lemma range_loop_never_exits fuel i (values : gmap Z bool) :
  MinInt64 <= i <= MaxInt64 → range_loop fuel i MaxInt64 values = None.
Proof.
  revert i values. induction fuel as [|fuel IH]; intros i values Hi; [done|].
  simpl. rewrite (proj2 (Z.leb_le i MaxInt64)) by lia.
  apply IH, wrap64_range.
Qed.

(** ** The items of a bounded field *)

Lemma parseField_item_range pa pb a b min max values :
  ch "-" ∉ pa → ch "-" ∉ pb → Atoi pa = Ok a → Atoi pb = Ok b →
  parseField_item (pa ++ ch "-" :: pb) min max values =
    if (a <? min) || (max <? b) || (b <? a) then Err ErrValuesOutOfRange
    else match range_loop (Z.to_nat (b - a + 2)) a b values with
         | Some values' => Ok values'
         | None => Hang
         end.
Proof.
  intros Hpa Hpb Ha Hb. unfold parseField_item.
  rewrite (proj2 (Contains_true _ _)) by (apply elem_of_app; right; left).
  rewrite Split_app_sep, Split_nosep by done.
  rewrite Ha. simpl. by rewrite Hb.
Qed.

Lemma parseField_item_bare p v min max values :
  ch "-" ∉ p → Atoi p = Ok v →
  parseField_item p min max values =
    if (v <? min) || (max <? v) then Err ErrValueOutOfRange
    else Ok (<[v := true]> values).
Proof.
  intros Hp Hv. unfold parseField_item.
  rewrite (proj2 (Contains_false _ _)) by done. by rewrite Hv.
Qed.

(** What an accepted item is and does: a bare integer or a range within
    the bounds, whose values are set in the map. *)
Lemma parseField_item_Ok r min max values values' :
  parseField_item r min max values = Ok values' →
  ∃ a b, 0 <= a ∧ min <= a ∧ a <= b ∧ b <= max ∧ b <= MaxInt64 ∧
    (∀ k, values' !! k =
          if bool_decide (a <= k <= b) then Some true else values !! k) ∧
    (((ch "-" ∉ r) ∧ a = b ∧ Atoi r = Ok a) ∨
     (∃ pa pb, r = pa ++ ch "-" :: pb ∧ (ch "-" ∉ pa) ∧ (ch "-" ∉ pb) ∧
               Atoi pa = Ok a ∧ Atoi pb = Ok b ∧ b < MaxInt64)).
Proof.
  unfold parseField_item. destruct (Contains r (ch "-")) eqn:Hc.
  - destruct (Split r (ch "-")) as [|pa [|pb [|]]] eqn:Hsp; try discriminate.
    apply Split_two in Hsp as (-> & Hpa & Hpb).
    intros H. inv_bind H. inv_bind H. rename a into a', a0 into b'.
    destruct (_ || _) eqn:Hcond; [discriminate|].
    apply orb_false_elim in Hcond as [Hcond ?%Z.ltb_ge].
    apply orb_false_elim in Hcond as [?%Z.ltb_ge ?%Z.ltb_ge].
    pose proof (Atoi_nodash_nonneg _ _ Hpa Ha).
    pose proof (Atoi_range _ _ Ha). pose proof (Atoi_range _ _ Ha0).
    destruct (decide (b' = MaxInt64)) as [->|Hb].
    { rewrite range_loop_never_exits in H by done. discriminate. }
    destruct (range_loop_exits (Z.to_nat (b' - a' + 2)) a' b' values)
      as (v' & Hrun & Hlook); [lia..|].
    rewrite Hrun in H. injection H as <-.
    exists a', b'. split_and!; try done; try lia.
    right. exists pa, pb. split_and!; try done. lia.
  - apply Contains_false in Hc. intros H. inv_bind H.
    destruct (_ || _) eqn:Hcond; [discriminate|].
    apply orb_false_elim in Hcond as [?%Z.ltb_ge ?%Z.ltb_ge].
    injection H as <-.
    pose proof (Atoi_nodash_nonneg _ _ Hc Ha). pose proof (Atoi_range _ _ Ha).
    exists a, a. split_and!; try done; try lia; [|by left].
    intros k. destruct (decide (k = a)) as [->|Hk].
    + rewrite lookup_insert_eq. by rewrite bool_decide_eq_true_2 by lia.
    + rewrite lookup_insert_ne by done.
      by rewrite bool_decide_eq_false_2 by lia.
Qed.

Lemma is_Err_iff_cond {A} (c : bool) e (m : result A) :
  ¬ is_Err m → is_Err (if c then Err e else m) ↔ c = true.
Proof.
  intros Hm. destruct c.
  - split; [done|eauto].
  - split; [by intros He|done].
Qed.

Lemma range_result_not_Err (o : option (gmap Z bool)) :
  ¬ is_Err (match o with Some values' => Ok values' | None => Hang end).
Proof. destruct o; [apply not_Err_Ok|apply not_Err_Hang]. Qed.

Lemma parseField_item_Err_values r min max values1 values2 :
  is_Err (parseField_item r min max values1) ↔
  is_Err (parseField_item r min max values2).
Proof.
  unfold parseField_item. destruct (Contains r (ch "-")).
  - destruct (Split r (ch "-")) as [|pa [|pb [|]]]; try done.
    destruct (Atoi pa) as [a| |]; simpl; try done.
    destruct (Atoi pb) as [b| |]; simpl; try done.
    rewrite !is_Err_iff_cond; [done|apply range_result_not_Err..].
  - destruct (Atoi r) as [v| |]; simpl; try done.
    rewrite !is_Err_iff_cond; [done|apply not_Err_Ok..].
Qed.

Lemma parseField_loop_first_error pre r post min max values v e :
  parseField_loop pre min max values = Ok v →
  parseField_item r min max v = Err e →
  parseField_loop (pre ++ r :: post) min max values = Err e.
Proof.
  revert values. induction pre as [|r0 pre IH]; intros values; simpl.
  - intros [= ->] Hr. by rewrite Hr.
  - intros H Hr. inv_bind H. rewrite Ha. simpl. by apply IH.
Qed.

(** C6: a range item [a-b] is rejected exactly when [a > b] or an
    endpoint is outside the bounds, and when accepted sets every integer
    of [a..b]; a bare integer is rejected exactly when it is outside the
    bounds; a rejected item makes [parseField] return its error; values
    already present neither cause an error nor are lost, so overlapping
    items collapse. *)
Theorem C6_item_validation min max values :
  (∀ pa pb a b,
     ch "-" ∉ pa → ch "-" ∉ pb → Atoi pa = Ok a → Atoi pb = Ok b →
     let item := parseField_item (pa ++ ch "-" :: pb) min max values in
     (is_Err item ↔ b < a ∨ a < min ∨ max < a ∨ b < min ∨ max < b) ∧
     (∀ values', item = Ok values' →
        ∀ k, values' !! k =
             if bool_decide (a <= k <= b) then Some true else values !! k) ∧
     (¬ is_Err item → b < MaxInt64 → ∃ values', item = Ok values')) ∧
  (∀ p v,
     ch "-" ∉ p → Atoi p = Ok v →
     let item := parseField_item p min max values in
     (is_Err item ↔ v < min ∨ max < v) ∧
     (¬ is_Err item → item = Ok (<[v := true]> values))) ∧
  (∀ s pre r post v e,
     s ≠ str "*" → Split s (ch ",") = pre ++ r :: post →
     parseField_loop pre min max ∅ = Ok v →
     parseField_item r min max v = Err e →
     parseField s min max = Err e) ∧
  (∀ r values2,
     is_Err (parseField_item r min max values) ↔
     is_Err (parseField_item r min max values2)) ∧
  (∀ r values' k,
     parseField_item r min max values = Ok values' →
     values !! k = Some true → values' !! k = Some true) ∧
  (∃ f, parseField (str "1-3,2-4,3") 0 6 = Ok f ∧
        Field.String f = str "1-4").
Proof.
  split_and!.
  - intros pa pb a b Hpa Hpb Ha Hb item. subst item.
    rewrite (parseField_item_range pa pb a b) by done.
    pose proof (Atoi_range _ _ Ha) as Hra.
    split_and!.
    + rewrite is_Err_iff_cond by apply range_result_not_Err.
      rewrite !orb_true_iff, !Z.ltb_lt. lia.
    + intros values' Hok k.
      destruct (_ || _) eqn:Hcond; [discriminate|].
      apply orb_false_elim in Hcond as [Hcond ?%Z.ltb_ge].
      apply orb_false_elim in Hcond as [?%Z.ltb_ge ?%Z.ltb_ge].
      pose proof (Atoi_range _ _ Hb) as Hrb.
      destruct (decide (b = MaxInt64)) as [->|Hne].
      { by rewrite range_loop_never_exits in Hok. }
      destruct (range_loop_exits (Z.to_nat (b - a + 2)) a b values)
        as (v' & Hrun & Hlook); [lia..|].
      rewrite Hrun in Hok. injection Hok as <-. apply Hlook.
    + intros Hne Hb64. destruct (_ || _) eqn:Hcond; [by destruct Hne|].
      apply orb_false_elim in Hcond as [Hcond ?%Z.ltb_ge].
      destruct (range_loop_exits (Z.to_nat (b - a + 2)) a b values)
        as (v' & -> & _); [lia..|]. eauto.
  - intros p v Hp Hv item. subst item.
    rewrite (parseField_item_bare p v) by done. split.
    + rewrite is_Err_iff_cond by apply not_Err_Ok.
      rewrite orb_true_iff, !Z.ltb_lt. lia.
    + intros Hne. destruct (_ || _); [by destruct Hne|done].
  - intros s pre r post v e Hs Hsplit Hpre Hr. unfold parseField.
    rewrite bool_decide_eq_false_2 by done. rewrite Hsplit.
    by rewrite (parseField_loop_first_error pre r post min max ∅ v e).
  - intros r values2. apply parseField_item_Err_values.
  - intros r values' k (a & b & _ & _ & _ & _ & _ & Hlook & _)%parseField_item_Ok
           Hk.
    rewrite Hlook, Hk. by case_bool_decide.
  - eexists. split; [vm_compute; reflexivity|]. vm_compute. reflexivity.
Qed.

(** ** What an accepted bounded field holds *)

Lemma dash_split_inj pa pb pa' pb' :
  ch "-" ∉ pa → ch "-" ∉ pa' →
  pa ++ ch "-" :: pb = pa' ++ ch "-" :: pb' → pa = pa' ∧ pb = pb'.
Proof.
  revert pa'. induction pa as [|c pa IH]; intros [|c' pa'] Hpa Hpa' Heq;
    simpl in *.
  - by injection Heq.
  - injection Heq as <- _. apply not_elem_of_cons in Hpa' as [? _]. done.
  - injection Heq as -> _. apply not_elem_of_cons in Hpa as [? _]. done.
  - injection Heq as <- Heq.
    apply not_elem_of_cons in Hpa as [_ Hpa].
    apply not_elem_of_cons in Hpa' as [_ Hpa'].
    destruct (IH pa' Hpa Hpa' Heq) as [-> ->]. done.
Qed.

Lemma dash_in_middle (pa pb : gostring) : ch "-" ∈ pa ++ ch "-" :: pb.
Proof. apply elem_of_app. right. left. Qed.

Lemma parseField_item_denotes r min max values values' :
  parseField_item r min max values = Ok values' →
  ∀ k, values' !! k = Some true ↔ item_denotes r k ∨ values !! k = Some true.
Proof.
  intros (a & b & _ & _ & _ & _ & _ & Hlook & Hshape)%parseField_item_Ok k.
  rewrite Hlook. unfold item_denotes.
  destruct Hshape as [(Hr & <- & Ha)|(pa & pb & -> & Hpa & Hpb & Ha & Hb & _)].
  - rewrite Ha. case_bool_decide as Hk.
    + assert (k = a) as -> by lia. split; [|done]. intros _. left. by left.
    + split; [by right|].
      intros [[[_ [= ->]]|(pa & pb & ? & ? & -> & _)]|?]; [lia| |done].
      destruct Hr. apply dash_in_middle.
  - case_bool_decide as Hk.
    + split; [|done]. intros _. left. right. exists pa, pb, a, b. done.
    + split; [by right|].
      intros [[[Hr _]|(pa' & pb' & a' & b' & Heq & Hpa' & _ & Ha' & Hb' & ?)]|?];
        [| |done].
      * destruct Hr. apply dash_in_middle.
      * apply dash_split_inj in Heq as [<- <-]; [|done..].
        rewrite Ha in Ha'. rewrite Hb in Hb'. injection Ha' as <-.
        injection Hb' as <-. lia.
Qed.

Lemma parseField_item_parsed r min max values values' :
  parseField_item r min max values = Ok values' →
  parsed_values min max values → parsed_values min max values'.
Proof.
  intros (a & b & ? & ? & ? & ? & ? & Hlook & _)%parseField_item_Ok Hv k x.
  rewrite Hlook. case_bool_decide; [|apply Hv].
  intros [= <-]. split_and!; try done; lia.
Qed.

Lemma parseField_item_inhabited r min max values values' :
  parseField_item r min max values = Ok values' → ∃ k, item_denotes r k.
Proof.
  intros (a & b & _ & _ & ? & _ & _ & _ & Hshape)%parseField_item_Ok.
  exists a. destruct Hshape as [(? & _ & ?)|(pa & pb & ? & ? & ? & ? & ? & _)].
  - by left.
  - right. exists pa, pb, a, b. split_and!; try done; lia.
Qed.

Lemma parseField_loop_Ok rs min max values values' :
  parseField_loop rs min max values = Ok values' →
  parsed_values min max values →
  parsed_values min max values' ∧
  (∀ k, values' !! k = Some true ↔
        (∃ r, r ∈ rs ∧ item_denotes r k) ∨ values !! k = Some true) ∧
  (rs ≠ [] → ∃ k, values' !! k = Some true).
Proof.
  revert values. induction rs as [|r rs IH]; simpl; intros values H Hv.
  - injection H as <-. split_and!; [done| |done]. intros k. split; [by right|].
    intros [(r & Hr & _)|?]; [|done]. by apply elem_of_nil in Hr.
  - inv_bind H. rename a into v1.
    pose proof (parseField_item_parsed _ _ _ _ _ Ha Hv) as Hv1.
    pose proof (parseField_item_denotes _ _ _ _ _ Ha) as Hd.
    destruct (IH _ H Hv1) as (Hv' & Hiff & _).
    assert (∀ k, values' !! k = Some true ↔
              (∃ r0, r0 ∈ r :: rs ∧ item_denotes r0 k) ∨
              values !! k = Some true) as Hall.
    { intros k. rewrite Hiff, Hd. split.
      + intros [(r' & Hr' & ?)|[?|?]].
        * left. exists r'. split; [by right|done].
        * left. exists r. split; [by left|done].
        * by right.
      + intros [(r' & [->|Hr']%elem_of_cons & ?)|?].
        * right. by left.
        * left. by exists r'.
        * right. by right. }
    split_and!; [done|done|]. intros _.
    destruct (parseField_item_inhabited _ _ _ _ _ Ha) as [k Hk].
    exists k. apply Hall. left. exists r. split; [by left|done].
Qed.

Lemma parsed_values_empty min max : parsed_values min max ∅.
Proof. intros k x. by rewrite lookup_empty. Qed.

Lemma parseField_Ok s min max f :
  parseField s min max = Ok f →
  (s = str "*" ∧ f = Field.mk ∅ true) ∨
  (s ≠ str "*" ∧ Field.all f = false ∧
   parsed_values min max (Field.values f) ∧
   (∀ k, Field.values f !! k = Some true ↔
         ∃ r, r ∈ Split s (ch ",") ∧ item_denotes r k) ∧
   ∃ k, Field.values f !! k = Some true).
Proof.
  unfold parseField. case_bool_decide as Hs.
  - intros [= <-]. by left.
  - intros H. inv_bind H. injection H as <-. right. simpl.
    apply parseField_loop_Ok in Ha as (Hv & Hiff & Hne);
      [|apply parsed_values_empty].
    split_and!; try done.
    + intros k. rewrite Hiff, lookup_empty. intuition discriminate.
    + apply Hne, Split_nonempty.
Qed.

(** The parser gives its Field the meaning of the token. *)
Lemma parseField_denotes s min max f :
  parseField s min max = Ok f →
  ∀ k, Field.matches f k = true ↔ token_denotes s k.
Proof.
  intros [[-> ->]|(Hs & Hall & Hv & Hiff & _)]%parseField_Ok k.
  - split; [by left|done].
  - rewrite Field_matches_holds. unfold field_holds, token_denotes.
    rewrite Hall, Hiff. intuition discriminate.
Qed.

(** C10: a Field whose all flag is off and whose map has no key renders
    as the asterisk, the text of the all-values Field: it matches nothing,
    yet its text parses back to a Field that matches everything; the
    parser itself never builds such a Field. *)
Theorem C10_empty_field_renders_star f :
  Field.all f = false → Field.values f = ∅ →
  Field.String f = str "*" ∧
  Field.String f = Field.String (Field.mk ∅ true) ∧
  (∀ v, Field.matches f v = false) ∧
  (∀ min max, ∃ f', parseField (Field.String f) min max = Ok f' ∧
                    ∀ v, Field.matches f' v = true) ∧
  (∀ s min max f', parseField s min max = Ok f' →
                   ¬ (Field.all f' = false ∧ Field.values f' = ∅)).
Proof.
  intros Hall Hvals.
  assert (Field.String f = str "*") as Hstar.
  { unfold Field.String. rewrite Hall, Hvals, map_to_list_empty. done. }
  split_and!; try done.
  - intros v. unfold Field.matches. by rewrite Hall, Hvals, lookup_empty.
  - intros min max. rewrite Hstar. by exists (Field.mk ∅ true).
  - intros s min max f' [[_ ->]|(_ & _ & _ & _ & k & Hk)]%parseField_Ok
           [Hall' Hempty]; [done|].
    by rewrite Hempty, lookup_empty in Hk.
Qed.

(** C10 at the Field with the all flag off and the empty map. *)
Lemma C10_witness :
  Field.String (Field.mk ∅ false) = str "*" ∧
  ∀ v, Field.matches (Field.mk ∅ false) v = false.
Proof.
  destruct (C10_empty_field_renders_star (Field.mk ∅ false))
    as (H1 & _ & H2 & _); [reflexivity|reflexivity|].
  exact (conj H1 H2).
Defined.

(** ** Time ranges *)

Lemma parseTime_not_Hang p : parseTime p ≠ Hang.
Proof.
  unfold parseTime.
  destruct (Split p (ch ":")) as [|p0 [|p1 [|p2 [|]]]]; try done.
  - pose proof (Atoi_not_Hang p0). pose proof (Atoi_not_Hang p1).
    destruct (Atoi p0); simpl; try done. destruct (Atoi p1); simpl; try done.
    by destruct (_ || _).
  - pose proof (Atoi_not_Hang p0). pose proof (Atoi_not_Hang p1).
    pose proof (Atoi_not_Hang p2).
    destruct (Atoi p0); simpl; try done. destruct (Atoi p1); simpl; try done.
    destruct (Atoi p2); simpl; try done.
    by destruct (_ || _).
Qed.

Lemma parseTimeRange_Ok_or_Err s :
  (∃ tr, parseTimeRange s = Ok tr) ∨ is_Err (parseTimeRange s).
Proof.
  unfold parseTimeRange. case_bool_decide; [eauto|].
  destruct (Split s (ch "-")) as [|p0 [|p1 [|]]]; eauto.
  pose proof (parseTime_not_Hang p0). pose proof (parseTime_not_Hang p1).
  destruct (parseTime p0) as [[d0 hs0]| |]; simpl; eauto; [|done].
  destruct (parseTime p1) as [[d1 hs1]| |]; simpl; eauto. done.
Qed.

Lemma parseTimeRange_complete s p0 p1 h0 m0 s0 hs0 h1 m1 s1 hs1 :
  s ≠ str "*" → Split s (ch "-") = [p0; p1] →
  time_token p0 h0 m0 s0 hs0 → time_token p1 h1 m1 s1 hs1 →
  ∃ tr, parseTimeRange s = Ok tr.
Proof.
  intros Hs Hsp H0 H1. unfold parseTimeRange.
  rewrite bool_decide_eq_false_2 by done. rewrite Hsp.
  rewrite (parseTime_complete _ _ _ _ _ H0). simpl.
  rewrite (parseTime_complete _ _ _ _ _ H1). simpl. eauto.
Qed.

(** C7: a time-range token other than the asterisk is a format error
    unless it splits at dashes into exactly two sub-tokens, and it parses
    exactly when each sub-token has two or three colon-separated integers
    with hours in 0..23 and minutes and seconds in 0..59; otherwise the
    parse is an error.  Hour 24, weekday 7, day-of-month 32 and month 13
    are rejected. *)
Theorem C7_time_range_validation s :
  s ≠ str "*" →
  (length (Split s (ch "-")) ≠ 2%nat →
   parseTimeRange s = Err ErrTimeRangeFormat) ∧
  ((∃ tr, parseTimeRange s = Ok tr) ↔
   ∃ p0 p1 h0 m0 s0 hs0 h1 m1 s1 hs1,
     Split s (ch "-") = [p0; p1] ∧
     time_token p0 h0 m0 s0 hs0 ∧ time_token p1 h1 m1 s1 hs1) ∧
  ((∃ tr, parseTimeRange s = Ok tr) ∨ is_Err (parseTimeRange s)) ∧
  parseTimeRange (str "24:00-17:00") = Err ErrTimeValues ∧
  parseField (str "7") 0 6 = Err ErrValueOutOfRange ∧
  parseField (str "32") 1 31 = Err ErrValueOutOfRange ∧
  parseField (str "13") 1 12 = Err ErrValueOutOfRange ∧
  parseRule (str "24:00-17:00 * * *") = Err ErrTimeValues ∧
  parseRule (str "17:20-21:35 7 * *") = Err (ErrInvalidDow ErrValueOutOfRange) ∧
  parseRule (str "17:20-21:35 1-5 32 *") =
    Err (ErrInvalidDom ErrValueOutOfRange) ∧
  parseRule (str "17:20-21:35 1-5 * 13") =
    Err (ErrInvalidMonth ErrValueOutOfRange).
Proof.
  intros Hs. split_and!; try reflexivity.
  - intros Hlen. unfold parseTimeRange.
    rewrite bool_decide_eq_false_2 by done.
    by destruct (Split s (ch "-")) as [|p0 [|p1 [|]]].
  - split.
    + intros [tr [[? _]|(_ & p0 & p1 & h0 & m0 & s0 & hs0 & h1 & m1 & s1 & hs1
                          & ? & ? & ? & _)]%parseTimeRange_Ok]; [done|].
      by exists p0, p1, h0, m0, s0, hs0, h1, m1, s1, hs1.
    + intros (p0 & p1 & h0 & m0 & s0 & hs0 & h1 & m1 & s1 & hs1 & ? & ? & ?).
      by eapply parseTimeRange_complete.
  - apply parseTimeRange_Ok_or_Err.
Qed.

(** C7 at the token [09:00-17:00:30]. *)
Lemma C7_witness :
  (∃ tr, parseTimeRange (str "09:00-17:00:30") = Ok tr) ∨
  is_Err (parseTimeRange (str "09:00-17:00:30")).
Proof.
  refine (proj1 (proj2 (proj2 (C7_time_range_validation
                                 (str "09:00-17:00:30") _)))).
  vm_compute. discriminate.
Defined.

(** C1 at the rule of [23:00-02:00 1-5 * 4-9] and Monday 1 April, 01:30:00. *)
Lemma C1_witness :
  ∃ r, parseRule (str "23:00-02:00 1-5 * 4-9") = Ok r ∧
    ∃ a b,
      TimeRange.start (Rule.timeRange r) = a * time.Second ∧
      TimeRange.end_ (Rule.timeRange r) = b * time.Second ∧
      TimeRange.overnight (Rule.timeRange r) = (b <? a) ∧
      (Rule.matches r (Time.mk 4 1 1 1 30 0) = true ↔
         field_holds (Rule.month r) 4 ∧
         field_holds (Rule.dom r) 1 ∧
         field_holds (Rule.dow r) 1 ∧
         timeRange_holds (Rule.timeRange r) a b (1 * 3600 + 30 * 60 + 0)).
Proof.
  eexists. split; [vm_compute; reflexivity|].
  apply (C1_matches_is_conjunction (str "23:00-02:00 1-5 * 4-9") _
           (Time.mk 4 1 1 1 30 0)).
  - vm_compute. reflexivity.
  - unfold Time.wf. simpl. lia.
Defined.

(** C3 at a list of two Rules and its swap. *)
Lemma C3_witness :
  let every := Rule.mk (TimeRange.mk 0 0 true false false)
                       (Field.mk ∅ true) (Field.mk ∅ true) (Field.mk ∅ true) in
  let never := Rule.mk (TimeRange.mk 0 0 true false false)
                       (Field.mk ∅ false) (Field.mk ∅ true) (Field.mk ∅ true) in
  Match [never; every] (Time.mk 1 1 1 0 0 0) =
  Match [every; never] (Time.mk 1 1 1 0 0 0).
Proof.
  intros every never.
  apply (proj2 (proj2 (C3_Match_is_disjunction [every; never]
                         (Time.mk 1 1 1 0 0 0)))).
  apply Permutation_swap.
Defined.

(** C8 at a segment of three tokens. *)
Lemma C8_witness : parseRule (str "* * *") = Err ErrFieldCount.
Proof.
  apply (proj1 (C8_four_fields (str "* * *"))). vm_compute. lia.
Defined.

(** C6 at the items [5-3] and [7] with bounds 0 and 6. *)
Lemma C6_witness :
  is_Err (parseField_item (str "5-3") 0 6 ∅) ∧
  is_Err (parseField_item (str "7") 0 6 ∅).
Proof.
  destruct (C6_item_validation 0 6 ∅) as (Hrange & Hbare & _).
  split.
  - apply (Hrange (str "5") (str "3") 5 3);
      [by_decide|by_decide|reflexivity|reflexivity|lia].
  - apply (Hbare (str "7") 7);
      [by_decide|reflexivity|lia].
Defined.

(** ** The batch loader *)

Lemma IndexByte_nl_Some data i :
  IndexByte_nl data = Some i →
  (LF ∉ take i data) ∧ data = take i data ++ LF :: drop (S i) data ∧
  length (take i data) = i.
Proof.
  revert i. induction data as [|c data IH]; simpl; intros i; [done|].
  case_bool_decide as Hc.
  - intros [= <-]. subst c. simpl. split_and!; [apply not_elem_of_nil|done..].
  - destruct (IndexByte_nl data) as [j|]; simpl; [|done]. intros [= <-].
    destruct (IH j eq_refl) as (Hnot & Heq & Hlen). simpl.
    split_and!.
    + apply not_elem_of_cons. done.
    + by rewrite <- Heq.
    + by rewrite Hlen.
Qed.

Lemma IndexByte_nl_None data : IndexByte_nl data = None → LF ∉ data.
Proof.
  induction data as [|c data IH]; simpl; [intros _; apply not_elem_of_nil|].
  case_bool_decide as Hc; [done|].
  destruct (IndexByte_nl data); simpl; [done|]. intros _.
  apply not_elem_of_cons. split; [congruence|]. by apply IH.
Qed.

Lemma drop_last_empty_cons p ps :
  ps ≠ [] → drop_last_empty (p :: ps) = p :: drop_last_empty ps.
Proof. by destruct ps. Qed.

Lemma text_lines_cons a rest :
  LF ∉ a → text_lines (a ++ LF :: rest) = a :: text_lines rest.
Proof.
  intros Ha. unfold text_lines. rewrite Split_app_sep by done.
  apply drop_last_empty_cons, Split_nonempty.
Qed.

Lemma text_lines_last data :
  LF ∉ data → data ≠ [] → text_lines data = [data].
Proof.
  intros Hd Hne. unfold text_lines. rewrite Split_nosep by done.
  by destruct data.
Qed.

(** With no line of [MaxScanTokenSize] bytes or more the scanner yields
    the lines of the text and reports no error. *)
Lemma scan_lines_short fuel data :
  (length data <= fuel)%nat →
  Forall (λ l, (length l < MaxScanTokenSize)%nat) (text_lines data) →
  scan_lines fuel data = (map dropCR (text_lines data), None).
Proof.
  revert data. induction fuel as [|fuel IH]; intros data Hfuel Hshort.
  - destruct data; [done|simpl in Hfuel; lia].
  - destruct data as [|c data]; [done|].
    unfold scan_lines; fold scan_lines.
    destruct (IndexByte_nl (c :: data)) as [i|] eqn:Hidx.
    + apply IndexByte_nl_Some in Hidx as (Hnot & Heq & Hlen).
      rewrite Heq in Hshort. rewrite text_lines_cons in Hshort by done.
      apply Forall_cons in Hshort as [Hi Hrest].
      rewrite Hlen in Hi. rewrite (proj2 (Nat.ltb_lt _ _)) by done.
      rewrite IH; [|rewrite length_drop; simpl in *; lia|done].
      rewrite Heq at 3. by rewrite text_lines_cons by done.
    + apply IndexByte_nl_None in Hidx.
      rewrite text_lines_last in Hshort |- * by done.
      apply Forall_cons in Hshort as [Hi _].
      by rewrite (proj2 (Nat.ltb_lt _ _)) by done.
Qed.

Lemma ParseFromReader_loop_Ok lines res rss :
  Forall2 (λ e rs, Parse e = Ok rs)
          (filter (λ e, e ≠ []) (map TrimSpace lines)) rss →
  ParseFromReader_loop lines res = Ok (res ++ concat rss).
Proof.
  revert res rss. induction lines as [|line lines IH]; intros res rss; simpl.
  - intros ->%Forall2_nil_inv_l. simpl. by rewrite app_nil_r.
  - rewrite filter_cons. case_bool_decide as Hblank.
    + rewrite decide_False by (by intros ?). apply IH.
    + rewrite decide_True by done.
      intros (rs & rss' & Hrs & Hall & ->)%Forall2_cons_inv_l.
      rewrite Hrs. simpl. rewrite (IH _ _ Hall). by rewrite app_assoc.
Qed.

Lemma ParseFromReader_loop_Err lines res pre e rest rss err :
  filter (λ e, e ≠ []) (map TrimSpace lines) = pre ++ e :: rest →
  Forall2 (λ e rs, Parse e = Ok rs) pre rss →
  Parse e = Err err →
  ParseFromReader_loop lines res = Err (ErrInvalidRule e err).
Proof.
  revert res pre rss. induction lines as [|line lines IH];
    intros res pre rss; simpl.
  - rewrite filter_nil. by destruct pre.
  - rewrite filter_cons. case_bool_decide as Hblank.
    + rewrite decide_False by (by intros ?). apply IH.
    + rewrite decide_True by done. destruct pre as [|e0 pre]; simpl.
      * intros [= -> _] _ He. by rewrite He.
      * intros [= -> Hrest] (rs & rss' & Hrs & Hall & ->)%Forall2_cons_inv_l He.
        rewrite Hrs. simpl. by eapply IH.
Qed.

(** C9 (amended): on a stream none of whose lines reaches the scanner's
    token limit, the loader skips the blank lines and parses the other
    ones as expressions in line order: when all of them parse, it returns
    their Rules appended in that order; otherwise it returns the error of
    the first one that does not parse; the empty stream gives the empty
    list and no error. *)
Theorem C9_batch_loader buf :
  Forall (λ l, (length l < MaxScanTokenSize)%nat) (text_lines buf) →
  (∀ rss, Forall2 (λ e rs, Parse e = Ok rs) (expressions buf) rss →
          ParseFromReader (Ok buf) = Ok (concat rss)) ∧
  (∀ pre e rest rss err,
     expressions buf = pre ++ e :: rest →
     Forall2 (λ e rs, Parse e = Ok rs) pre rss →
     Parse e = Err err →
     ParseFromReader (Ok buf) = Err (ErrInvalidRule e err)) ∧
  ParseFromReader (Ok []) = Ok [].
Proof.
  intros Hshort. unfold expressions.
  assert (map (λ l, TrimSpace (dropCR l)) (text_lines buf)
          = map TrimSpace (map dropCR (text_lines buf))) as ->
    by (by rewrite map_map).
  split_and!; [| |done].
  - intros rss Hall. unfold ParseFromReader. simpl.
    case_bool_decide as Hlen.
    + apply nil_length_inv in Hlen. subst buf. simpl in Hall.
      rewrite filter_nil in Hall. by apply Forall2_nil_inv_l in Hall as ->.
    + rewrite scan_lines_short by done.
      by rewrite (ParseFromReader_loop_Ok _ [] rss Hall).
  - intros pre e rest rss err Hsplit Hpre He. unfold ParseFromReader. simpl.
    case_bool_decide as Hlen.
    + apply nil_length_inv in Hlen. subst buf. simpl in Hsplit.
      rewrite filter_nil in Hsplit. by destruct pre.
    + rewrite scan_lines_short by done.
      by rewrite (ParseFromReader_loop_Err _ [] pre e rest rss err).
Qed.

(** C9 at a stream of two expressions around a blank line. *)
Lemma C9_witness :
  ParseFromReader (Ok (str "* 0,6 * *" ++ [CR; LF; LF] ++ str "* * 1 *")) =
  Ok (concat [[Rule.mk (TimeRange.mk 0 0 true false false)
                 (Field.mk {[0 := true; 6 := true]} false)
                 (Field.mk ∅ true) (Field.mk ∅ true)];
              [Rule.mk (TimeRange.mk 0 0 true false false)
                 (Field.mk ∅ true) (Field.mk {[1 := true]} false)
                 (Field.mk ∅ true)]]).
Proof.
  assert (Forall (λ l, (length l < MaxScanTokenSize)%nat)
            (text_lines (str "* 0,6 * *" ++ [CR; LF; LF] ++ str "* * 1 *")))
    as Hshort by by_decide.
  apply (proj1 (C9_batch_loader
                  (str "* 0,6 * *" ++ [CR; LF; LF] ++ str "* * 1 *") Hshort)).
  replace (expressions (str "* 0,6 * *" ++ [CR; LF; LF] ++ str "* * 1 *"))
    with [str "* 0,6 * *"; str "* * 1 *"] by (vm_compute; reflexivity).
  repeat (constructor; [vm_compute; reflexivity|]). constructor.
Defined.

(** C9 as stated fails on a line that reaches the token limit: a stream
    of 65536 spaces has a single line, blank after trimming, so nothing
    is to be parsed, and yet the load is an error. *)
Lemma C9_counterexample :
  expressions (replicate (Z.to_nat 65536) (ch " ")) = [] ∧
  ParseFromReader (Ok (replicate (Z.to_nat 65536) (ch " "))) =
    Err (ErrReadInput ErrTooLong) ∧
  ParseFromReader (Ok (replicate (Z.to_nat 65536) (ch " "))) ≠ Ok (concat []).
Proof.
  assert (ParseFromReader (Ok (replicate (Z.to_nat 65536) (ch " "))) =
          Err (ErrReadInput ErrTooLong)) as Hload
    by (vm_compute; reflexivity).
  split_and!; [vm_compute; reflexivity|exact Hload|].
  rewrite Hload. discriminate.
Qed.

(** ** Decimal text: [%d] and [Atoi] are inverse on the integers met *)

Ltac in_alphabet H :=
  unfold str in H; simpl in H;
  repeat (apply elem_of_cons in H as [->|H]); [..|by apply elem_of_nil in H].

Lemma over_nil a : over a [].
Proof. constructor. Qed.

Lemma over_app a s t : over a (s ++ t) ↔ over a s ∧ over a t.
Proof. unfold over. by rewrite Forall_app. Qed.

Lemma over_cons a c s : over a (c :: s) ↔ c ∈ str a ∧ over a s.
Proof. unfold over. by rewrite Forall_cons. Qed.

Lemma over_weaken a b s :
  (∀ c, c ∈ str a → c ∈ str b) → over a s → over b s.
Proof. intros Hab Hs. eapply Forall_impl; [exact Hs|exact Hab]. Qed.

Lemma over_not_elem a s c : c ∉ str a → over a s → c ∉ s.
Proof.
  intros Hc Hs Hin. eapply Forall_forall in Hs; [|exact Hin]. done.
Qed.

Lemma digit_char_digit d : 0 <= d <= 9 → digit_char d ∈ str "0123456789".
Proof.
  intros Hd.
  assert (d = 0 ∨ d = 1 ∨ d = 2 ∨ d = 3 ∨ d = 4 ∨ d = 5 ∨ d = 6 ∨ d = 7 ∨
          d = 8 ∨ d = 9) as Hcases by lia.
  repeat (destruct Hcases as [->|Hcases]); [..|subst d]; by_decide.
Qed.

Lemma digit_of_char d : 0 <= d <= 9 → digit_of (digit_char d) = Some d.
Proof.
  intros Hd.
  assert (d = 0 ∨ d = 1 ∨ d = 2 ∨ d = 3 ∨ d = 4 ∨ d = 5 ∨ d = 6 ∨ d = 7 ∨
          d = 8 ∨ d = 9) as Hcases by lia.
  repeat (destruct Hcases as [->|Hcases]); [..|subst d]; reflexivity.
Qed.

Lemma fmt_uint_digits fuel u acc :
  0 <= u → over "0123456789" acc → over "0123456789" (fmt_uint fuel u acc).
Proof.
  revert u acc. induction fuel as [|fuel IH]; intros u acc Hu Hacc; [done|].
  simpl. destruct (Z.ltb_spec u 10).
  - apply over_cons. split; [apply digit_char_digit; lia|done].
  - apply IH; [apply Z.div_pos; lia|].
    apply over_cons. split; [|done].
    apply digit_char_digit. pose proof (Z.mod_pos_bound u 10). lia.
Qed.

Lemma fmt_uint_nonempty fuel u acc : fmt_uint (S fuel) u acc ≠ [].
Proof.
  revert u acc. induction fuel as [|fuel IH]; intros u acc; simpl.
  - by destruct (u <? 10).
  - destruct (u <? 10); [done|]. apply IH.
Qed.

Lemma ParseUint_go_fmt fuel u acc :
  0 <= u <= MaxUint64 → u < 10 ^ Z.of_nat fuel →
  ParseUint_go (fmt_uint fuel u acc) 0 = ParseUint_go acc u.
Proof.
  revert u acc. induction fuel as [|fuel IH]; intros u acc Hu Hfuel.
  - simpl in *. by assert (u = 0) as -> by lia.
  - simpl fmt_uint. destruct (Z.ltb_spec u 10) as [Hlt|Hge].
    + simpl. rewrite digit_of_char by lia. simpl.
      unfold MaxUint64 in *.
      rewrite (proj2 (Z.ltb_ge _ _)) by lia. done.
    + rewrite Nat2Z.inj_succ, Z.pow_succ_r in Hfuel by lia.
      pose proof (Z.mod_pos_bound u 10 ltac:(lia)) as Hmod.
      pose proof (Z.div_mod u 10 ltac:(lia)) as Hdm.
      rewrite IH by (unfold MaxUint64 in *; lia).
      simpl. rewrite digit_of_char by lia. unfold MaxUint64 in *.
      change (18446744073709551615 `div` 10) with 1844674407370955161.
      rewrite (proj2 (Z.leb_gt _ _)) by lia.
      rewrite (proj2 (Z.ltb_ge _ _)) by lia.
      f_equal. lia.
Qed.

Lemma digit_not_sign c :
  c ∈ str "0123456789" →
  bool_decide (c = ch "+") = false ∧ bool_decide (c = ch "-") = false.
Proof. intros Hc. in_alphabet Hc; by split. Qed.

(** A string of digits is read as the number it spells. *)
Lemma Atoi_digits s u :
  s ≠ [] → over "0123456789" s → ParseUint_go s 0 = inr u → u <= MaxInt64 →
  Atoi s = Ok u.
Proof.
  intros Hne Hs Hgo Hu. destruct s as [|c s]; [done|].
  apply over_cons in Hs as [Hc _].
  destruct (digit_not_sign c Hc) as [Hplus Hminus].
  unfold Atoi. rewrite Hplus, Hminus. simpl orb. cbv iota.
  rewrite Hgo. simpl.
  rewrite (proj2 (Z.leb_gt _ _)) by (unfold MaxInt64 in *; lia). done.
Qed.

Lemma fmt_d_digits z : 0 <= z → over "0123456789" (fmt_d z).
Proof.
  intros Hz. unfold fmt_d. rewrite (proj2 (Z.ltb_ge _ _)) by done.
  apply fmt_uint_digits; [done|apply over_nil].
Qed.

Lemma fmt_d_nonempty z : fmt_d z ≠ [].
Proof. unfold fmt_d. destruct (z <? 0); [done|apply fmt_uint_nonempty]. Qed.

Lemma ParseUint_go_fmt_d z :
  0 <= z <= MaxInt64 → ParseUint_go (fmt_d z) 0 = inr z.
Proof.
  intros Hz. unfold fmt_d. rewrite (proj2 (Z.ltb_ge _ _)) by lia.
  rewrite ParseUint_go_fmt; [done| |]; unfold MaxInt64, MaxUint64 in *; lia.
Qed.

Lemma Atoi_fmt_d z : 0 <= z <= MaxInt64 → Atoi (fmt_d z) = Ok z.
Proof.
  intros Hz. apply Atoi_digits; [apply fmt_d_nonempty|apply fmt_d_digits; lia
                                |by apply ParseUint_go_fmt_d|lia].
Qed.

Lemma fmt_02d_digits z : 0 <= z → over "0123456789" (fmt_02d z).
Proof.
  intros Hz. unfold fmt_02d. pose proof (fmt_d_digits z Hz).
  destruct (_ <? _)%nat; [|done]. apply over_cons. split; [by_decide|done].
Qed.

Lemma fmt_02d_nonempty z : fmt_02d z ≠ [].
Proof.
  unfold fmt_02d. destruct (_ <? _)%nat; [done|apply fmt_d_nonempty].
Qed.

Lemma Atoi_fmt_02d z : 0 <= z <= MaxInt64 → Atoi (fmt_02d z) = Ok z.
Proof.
  intros Hz. apply Atoi_digits;
    [apply fmt_02d_nonempty|apply fmt_02d_digits; lia| |lia].
  unfold fmt_02d. destruct (_ <? _)%nat; [|by apply ParseUint_go_fmt_d].
  simpl. by apply ParseUint_go_fmt_d.
Qed.

(** ** The sorted keys of a value map *)

Lemma map_fmap {A B} (f : A → B) (l : list A) : map f l = f <$> l.
Proof. induction l as [|x l IH]; simpl; [done|]. by rewrite IH. Qed.

Lemma StronglySorted_lt (l : list Z) :
  StronglySorted Z.le l → NoDup l → StronglySorted Z.lt l.
Proof.
  induction l as [|x l IH]; [constructor|].
  intros [Hx Hl]%StronglySorted_cons [Hnot Hnd]%NoDup_cons.
  apply StronglySorted_cons. split; [|by apply IH].
  apply Forall_forall. intros y Hy.
  pose proof (proj1 (Forall_forall _ _) Hx y Hy) as Hle.
  assert (x ≠ y) by (intros ->; done). lia.
Qed.

Lemma sorted_keys (m : gmap Z bool) :
  let vals := merge_sort Z.le (map fst (map_to_list m)) in
  StronglySorted Z.lt vals ∧ ∀ k, k ∈ vals ↔ is_Some (m !! k).
Proof.
  intros vals. subst vals. rewrite map_fmap.
  pose proof (merge_sort_Permutation Z.le (map_to_list m).*1) as Hperm.
  split.
  - apply StronglySorted_lt.
    + apply StronglySorted_merge_sort; apply _.
    + rewrite Hperm. apply NoDup_fst_map_to_list.
  - intros k. rewrite Hperm, list_elem_of_fmap. split.
    + intros [[k' x] [-> Hin]]. apply elem_of_map_to_list in Hin. by exists x.
    + intros [x Hx]. exists (k, x). split; [done|].
      by apply elem_of_map_to_list.
Qed.

(** ** Runs of consecutive values *)

Lemma runs_cover vals start prev k :
  start <= prev →
  StronglySorted Z.lt (prev :: vals) →
  (∃ a b, (a, b) ∈ runs vals start prev ∧ a <= k <= b) ↔
  (start <= k <= prev ∨ k ∈ vals).
Proof.
  revert start prev. induction vals as [|v vs IH]; intros start prev Hsp Hs;
    simpl.
  - split.
    + intros (a & b & [= -> ->]%list_elem_of_singleton & ?). by left.
    + intros [?|Hin]; [|by apply elem_of_nil in Hin].
      exists start, prev. split; [by apply list_elem_of_singleton|done].
  - apply StronglySorted_cons in Hs as [Hprev Hs].
    apply Forall_cons in Hprev as [Hpv _].
    destruct (Z.eqb_spec v (prev + 1)) as [Hv|Hv].
    + rewrite IH by (done || lia). rewrite elem_of_cons. split.
      * intros [?|?]; [|by right; right].
        destruct (decide (k = v)); [right; by left|left; lia].
      * intros [?|[->|?]]; [left; lia|left; lia|by right].
    + split.
      * intros (a & b & [[= -> ->]|Hin]%elem_of_cons & Hk); [by left|].
        right. apply elem_of_cons.
        destruct (proj1 (IH v v ltac:(lia) Hs)) as [?|?];
          [by exists a, b|left; lia|by right].
      * intros [?|[->|Hin]%elem_of_cons].
        -- exists start, prev. split; [by left|done].
        -- destruct (proj2 (IH v v ltac:(lia) Hs)) as (a & b & ? & ?);
             [left; lia|]. exists a, b. split; [by right|done].
        -- destruct (proj2 (IH v v ltac:(lia) Hs)) as (a & b & ? & ?);
             [by right|]. exists a, b. split; [by right|done].
Qed.

Lemma runs_bounds vals start prev :
  start <= prev →
  StronglySorted Z.lt (prev :: vals) →
  Forall (λ ab, ab.1 ∈ start :: vals ∧ ab.2 ∈ prev :: vals ∧ ab.1 <= ab.2)
         (runs vals start prev).
Proof.
  revert start prev. induction vals as [|v vs IH]; intros start prev Hsp Hs;
    simpl.
  - repeat constructor; simpl; done.
  - apply StronglySorted_cons in Hs as [Hprev Hs].
    apply Forall_cons in Hprev as [Hpv _].
    destruct (Z.eqb_spec v (prev + 1)) as [Hv|Hv].
    + eapply Forall_impl; [apply (IH start v); [lia|done]|].
      intros [a b] (Ha & Hb & Hab). simpl in *. split_and!; [|by right|done].
      apply elem_of_cons in Ha as [->|Ha]; [left|by do 2 right].
    + constructor; [simpl; split_and!; [left|left|done]|].
      eapply Forall_impl; [apply (IH v v); [lia|done]|].
      intros [a b] (Ha & Hb & Hab). simpl in *. split_and!; [|by right|done].
      by right.
Qed.

Lemma runs_nonempty vals start prev : runs vals start prev ≠ [].
Proof.
  revert start prev. induction vals as [|v vs IH]; intros start prev; simpl;
    [done|]. destruct (v =? prev + 1); [apply IH|done].
Qed.

Lemma String_loop_runs vals ranges start prev :
  MinInt64 <= prev →
  StronglySorted Z.lt (prev :: vals) →
  Forall (λ v, v <= MaxInt64) vals →
  let '(ranges', start', prev') := Field.String_loop vals ranges start prev in
  ranges' ++ [Field.render start' prev'] =
  ranges ++ map (λ ab, Field.render ab.1 ab.2) (runs vals start prev).
Proof.
  revert ranges start prev.
  induction vals as [|v vs IH]; intros ranges start prev Hmin Hs Hmax; simpl.
  - done.
  - apply StronglySorted_cons in Hs as [Hprev Hs].
    apply Forall_cons in Hprev as [Hpv _].
    apply Forall_cons in Hmax as [Hv Hmax].
    unfold add64. rewrite wrap64_id by (unfold MinInt64, MaxInt64 in *; lia).
    destruct (Z.eqb_spec v (prev + 1)) as [Heq|Hne]; simpl.
    + apply IH; [lia|done|done].
    + specialize (IH (ranges ++ [Field.render start prev]) v v
                     ltac:(lia) Hs Hmax).
      destruct (Field.String_loop vs _ v v) as [[ranges' start'] prev'].
      rewrite IH. by rewrite <- app_assoc.
Qed.

(** ** Rendered items *)

Lemma dash_not_digit : ch "-" ∉ str "0123456789".
Proof. by_decide. Qed.

Lemma comma_not_item : ch "," ∉ str "0123456789-".
Proof. by_decide. Qed.

Lemma fmt_d_no_dash z : 0 <= z → ch "-" ∉ fmt_d z.
Proof.
  intros Hz. eapply over_not_elem; [apply dash_not_digit|by apply fmt_d_digits].
Qed.

Lemma digits_item s : over "0123456789" s → over "0123456789-" s.
Proof. apply over_weaken. intros c Hc. in_alphabet Hc; by_decide. Qed.

Lemma render_alphabet a b :
  0 <= a → 0 <= b → over "0123456789-" (Field.render a b).
Proof.
  intros Ha Hb. unfold Field.render. destruct (a =? b).
  - by apply digits_item, fmt_d_digits.
  - rewrite !over_app. split_and!.
    + by apply digits_item, fmt_d_digits.
    + apply over_cons. split; [by_decide|apply over_nil].
    + by apply digits_item, fmt_d_digits.
Qed.

Lemma render_nonempty a b : Field.render a b ≠ [].
Proof.
  unfold Field.render. pose proof (fmt_d_nonempty a).
  destruct (a =? b); [done|]. by destruct (fmt_d a).
Qed.

Lemma render_denotes a b k :
  0 <= a → a <= b → b <= MaxInt64 →
  item_denotes (Field.render a b) k ↔ a <= k <= b.
Proof.
  intros Ha Hab Hb. unfold Field.render, item_denotes.
  destruct (Z.eqb_spec a b) as [<-|Hne].
  - rewrite Atoi_fmt_d by lia. split.
    + intros [[_ [= ->]]|(pa & pb & ? & ? & Heq & _)]; [lia|].
      destruct (fmt_d_no_dash a Ha). rewrite Heq. apply dash_in_middle.
    + intros Hk. left. split; [by apply fmt_d_no_dash|]. f_equal. lia.
  - split.
    + intros [[Hno _]|(pa & pb & a' & b' & Heq & Hpa & Hpb & Ha' & Hb' & Hk)].
      * destruct Hno. apply dash_in_middle.
      * apply dash_split_inj in Heq as [<- <-];
          [|by apply fmt_d_no_dash|done].
        rewrite Atoi_fmt_d in Ha', Hb' by lia.
        injection Ha' as <-. injection Hb' as <-. done.
    + intros Hk. right. exists (fmt_d a), (fmt_d b), a, b.
      split; [done|]. split; [apply fmt_d_no_dash; lia|].
      split; [apply fmt_d_no_dash; lia|].
      split; [apply Atoi_fmt_d; lia|]. split; [apply Atoi_fmt_d; lia|done].
Qed.

Lemma render_accepted a b min max values :
  0 <= a → min <= a → a <= b → b <= max → b < MaxInt64 →
  ∃ values', parseField_item (Field.render a b) min max values = Ok values'.
Proof.
  intros Ha Hmin Hab Hmax Hb. unfold Field.render.
  destruct (Z.eqb_spec a b) as [<-|Hne].
  - rewrite (parseField_item_bare _ a) by
      (by apply fmt_d_no_dash || (apply Atoi_fmt_d; lia)).
    rewrite (proj2 (Z.ltb_ge _ _)), (proj2 (Z.ltb_ge _ _)) by lia. eauto.
  - change (fmt_d a ++ str "-" ++ fmt_d b) with (fmt_d a ++ ch "-" :: fmt_d b).
    rewrite (parseField_item_range _ _ a b) by
      (apply fmt_d_no_dash; lia) || (apply Atoi_fmt_d; lia).
    rewrite !(proj2 (Z.ltb_ge _ _)) by lia. simpl.
    destruct (range_loop_exits (Z.to_nat (b - a + 2)) a b values)
      as (v' & -> & _); [unfold MinInt64; lia|lia..|]. eauto.
Qed.

(** Parsing the rendered runs sets exactly the integers they cover. *)
Lemma parseField_loop_runs rs min max values :
  Forall (λ ab, 0 <= ab.1 ∧ min <= ab.1 ∧ ab.1 <= ab.2 ∧ ab.2 <= max ∧
                ab.2 < MaxInt64) rs →
  parsed_values min max values →
  ∃ values',
    parseField_loop (map (λ ab, Field.render ab.1 ab.2) rs) min max values
      = Ok values' ∧
    parsed_values min max values' ∧
    ∀ k, values' !! k = Some true ↔
         (∃ a b, (a, b) ∈ rs ∧ a <= k <= b) ∨ values !! k = Some true.
Proof.
  revert values. induction rs as [|[a b] rs IH]; intros values Hrs Hv; simpl.
  - exists values. split_and!; [done..|]. intros k. split; [by right|].
    intros [(a & b & Hin & _)|?]; [by apply elem_of_nil in Hin|done].
  - apply Forall_cons in Hrs as [(Ha & Hmin & Hab & Hmax & Hb) Hrs].
    simpl in *.
    destruct (render_accepted a b min max values) as [v1 Hv1]; try done.
    rewrite Hv1. simpl.
    pose proof (parseField_item_parsed _ _ _ _ _ Hv1 Hv) as Hp1.
    pose proof (parseField_item_denotes _ _ _ _ _ Hv1) as Hd1.
    destruct (IH v1 Hrs Hp1) as (values' & Hloop & Hp' & Hiff).
    exists values'. split_and!; [done..|]. intros k.
    rewrite Hiff, Hd1, render_denotes by lia. split.
    + intros [(a' & b' & Hin & ?)|[?|?]].
      * left. exists a', b'. split; [by right|done].
      * left. exists a, b. split; [by left|done].
      * by right.
    + intros [(a' & b' & [[= -> ->]|Hin]%elem_of_cons & ?)|?].
      * right. by left.
      * left. by exists a', b'.
      * right. by right.
Qed.

Lemma runs_denote rs k :
  Forall (λ ab : Z * Z, 0 <= ab.1 ∧ ab.1 <= ab.2 ∧ ab.2 <= MaxInt64) rs →
  (∃ r, r ∈ map (λ ab, Field.render ab.1 ab.2) rs ∧ item_denotes r k) ↔
  (∃ a b, (a, b) ∈ rs ∧ a <= k <= b).
Proof.
  intros Hrs. rewrite map_fmap. split.
  - intros (r & [[a b] [-> Hin]]%list_elem_of_fmap & Hk).
    pose proof (proj1 (Forall_forall _ _) Hrs _ Hin) as (? & ? & ?).
    simpl in *. apply render_denotes in Hk; [|done..]. by exists a, b.
  - intros (a & b & Hin & Hk).
    pose proof (proj1 (Forall_forall _ _) Hrs _ Hin) as (? & ? & ?).
    simpl in *. exists (Field.render a b). split.
    + apply list_elem_of_fmap. by exists (a, b).
    + by apply render_denotes.
Qed.

(** ** Formatting a parsed Field and reading it back *)

Lemma Join_alphabet a l sep :
  Forall (over a) l → over a sep → over a (Join l sep).
Proof.
  intros Hl Hsep. induction l as [|e l IH]; [apply over_nil|].
  apply Forall_cons in Hl as [He Hl]. destruct l as [|e' l]; [done|].
  change (Join (e :: e' :: l) sep) with (e ++ sep ++ Join (e' :: l) sep).
  rewrite !over_app. split_and!; [done..|]. by apply IH.
Qed.

Lemma parsed_values_ext min max (m1 m2 : gmap Z bool) :
  parsed_values min max m1 → parsed_values min max m2 →
  (∀ k, m1 !! k = Some true ↔ m2 !! k = Some true) → m1 = m2.
Proof.
  intros H1 H2 Hiff. apply map_eq. intros k.
  destruct (m1 !! k) as [x1|] eqn:E1, (m2 !! k) as [x2|] eqn:E2; [| | |done].
  - destruct (H1 _ _ E1) as [-> _], (H2 _ _ E2) as [-> _]. done.
  - destruct (H1 _ _ E1) as [-> _]. apply Hiff in E1. congruence.
  - destruct (H2 _ _ E2) as [-> _]. apply Hiff in E2. congruence.
Qed.

(** The text of a Field with an explicit, non-empty set: its runs,
    rendered and joined by commas. *)
Lemma Field_String_runs f min max :
  Field.all f = false →
  parsed_values min max (Field.values f) →
  (∃ k, Field.values f !! k = Some true) →
  ∃ rs, rs ≠ [] ∧
    Field.String f = Join (map (λ ab, Field.render ab.1 ab.2) rs) [ch ","] ∧
    Forall (λ ab, 0 <= ab.1 ∧ min <= ab.1 ∧ ab.1 <= ab.2 ∧ ab.2 <= max ∧
                  ab.2 <= MaxInt64) rs ∧
    ∀ k, (∃ a b, (a, b) ∈ rs ∧ a <= k <= b) ↔ Field.values f !! k = Some true.
Proof.
  intros Hall Hv [k0 Hk0]. unfold Field.String. rewrite Hall.
  destruct (sorted_keys (Field.values f)) as [Hsorted Hkeys].
  assert (∀ k, is_Some (Field.values f !! k) ↔ Field.values f !! k = Some true)
    as Htrue.
  { intros k. split; [|by eauto]. intros [x Hx].
    by destruct (Hv _ _ Hx) as [-> _]. }
  destruct (merge_sort Z.le (map fst (map_to_list (Field.values f))))
    as [|v0 rest] eqn:Hvals.
  { exfalso. eapply elem_of_nil, Hkeys. eauto. }
  assert (∀ k, k ∈ v0 :: rest →
               0 <= k ∧ min <= k <= max ∧ k <= MaxInt64) as Hbound.
  { intros k [x Hx]%Hkeys. destruct (Hv _ _ Hx) as (_ & ? & ? & ?). done. }
  pose proof (String_loop_runs rest [] v0 v0) as Hloop.
  destruct (Field.String_loop rest [] v0 v0) as [[ranges start] prev].
  rewrite Hloop; cycle 1.
  { destruct (Hbound v0) as [? _]; [left|]. unfold MinInt64. lia. }
  { done. }
  { apply Forall_forall. intros v Hin. apply Hbound. by right. }
  exists (runs rest v0 v0). split_and!.
  - apply runs_nonempty.
  - done.
  - eapply Forall_impl; [apply runs_bounds; [lia|done]|].
    intros [a b] (Ha & Hb & Hab). simpl in *.
    destruct (Hbound a Ha) as (? & ? & ?), (Hbound b) as (? & ? & ?);
      [done|]. lia.
  - intros k. rewrite runs_cover by (lia || done).
    rewrite <- Htrue, <- Hkeys, elem_of_cons. split.
    + intros [?|?]; [left; lia|by right].
    + intros [->|?]; [left; lia|by right].
Qed.

Lemma render_no_comma rs :
  Forall (λ ab : Z * Z, 0 <= ab.1 ∧ ab.1 <= ab.2) rs →
  Forall (λ p, ch "," ∉ p) (map (λ ab, Field.render ab.1 ab.2) rs).
Proof.
  intros Hrs. rewrite map_fmap. apply Forall_fmap.
  eapply Forall_impl; [exact Hrs|]. intros [a b] [Ha Hab]. simpl in *.
  eapply over_not_elem; [apply comma_not_item|apply render_alphabet; lia].
Qed.

Lemma rendered_not_star rs :
  rs ≠ [] →
  Forall (λ ab : Z * Z, 0 <= ab.1 ∧ ab.1 <= ab.2) rs →
  Join (map (λ ab, Field.render ab.1 ab.2) rs) [ch ","] ≠ str "*".
Proof.
  intros Hne Hrs Heq.
  assert (ch "*" ∉ str "0123456789-,") as Hno by by_decide.
  apply Hno.
  assert (over "0123456789-," (str "*")) as Hstar;
    [|by apply over_cons in Hstar as [Hc _]].
  rewrite <- Heq. apply Join_alphabet.
  - rewrite map_fmap. apply Forall_fmap.
    eapply Forall_impl; [exact Hrs|]. intros [a b] [Ha Hab]. simpl in *.
    eapply over_weaken; [|apply render_alphabet; lia].
    intros c Hc. in_alphabet Hc; by_decide.
  - apply over_cons. split; [by_decide|apply over_nil].
Qed.

(** Within bounds below the largest integer the text of a parsed Field
    parses back to the very same Field. *)
Lemma parseField_String s min max f :
  parseField s min max = Ok f → max < MaxInt64 →
  parseField (Field.String f) min max = Ok f.
Proof.
  intros [[_ ->]|(_ & Hall & Hv & _ & Hne)]%parseField_Ok Hmax; [done|].
  destruct (Field_String_runs f min max Hall Hv Hne)
    as (rs & Hrs & -> & Hbounds & Hcover).
  unfold parseField.
  rewrite bool_decide_eq_false_2; cycle 1.
  { apply rendered_not_star; [done|].
    eapply Forall_impl; [exact Hbounds|]. intros [a b]. simpl. lia. }
  rewrite Split_Join; cycle 1.
  { by destruct rs. }
  { apply render_no_comma.
    eapply Forall_impl; [exact Hbounds|]. intros [a b]. simpl. lia. }
  destruct (parseField_loop_runs rs min max ∅) as (values' & -> & Hp' & Hiff).
  { eapply Forall_impl; [exact Hbounds|]. intros [a b]. simpl. lia. }
  { apply parsed_values_empty. }
  simpl. f_equal. destruct f as [vals all]. simpl in *. subst all. f_equal.
  apply (parsed_values_ext min max); [done..|].
  intros k. rewrite Hiff, lookup_empty, Hcover. intuition discriminate.
Qed.

(** The text of a parsed Field denotes what the Field holds. *)
Lemma Field_String_denotes s min max f k :
  parseField s min max = Ok f →
  token_denotes (Field.String f) k ↔ Field.matches f k = true.
Proof.
  intros [[_ ->]|(_ & Hall & Hv & _ & Hne)]%parseField_Ok.
  { split; [done|]. intros _. by left. }
  destruct (Field_String_runs f min max Hall Hv Hne)
    as (rs & Hrs & -> & Hbounds & Hcover).
  rewrite Field_matches_holds. unfold token_denotes, field_holds.
  rewrite Hall, <- Hcover.
  rewrite Split_Join; cycle 1.
  { by destruct rs. }
  { apply render_no_comma.
    eapply Forall_impl; [exact Hbounds|]. intros [a b]. simpl. lia. }
  rewrite runs_denote; cycle 1.
  { eapply Forall_impl; [exact Hbounds|]. intros [a b]. simpl. lia. }
  split; [|intros [?|?]; [done|by right]].
  intros [Heq|?]; [|by right].
  exfalso. revert Heq. apply rendered_not_star; [done|].
  eapply Forall_impl; [exact Hbounds|]. intros [a b]. simpl. lia.
Qed.

(** C4: the text that [Field.String] gives for a parsed bounded field
    denotes the same set of integers as the token that was parsed, which
    is the set the Field matches; below the largest integer the text is
    accepted again and gives the same Field.  [1,3-3,5] and [1,3,5] both
    give [1,3,5], and [1-2,3] gives [1-3]. *)
Theorem C4_format_denotes_same_set s min max f :
  parseField s min max = Ok f →
  (∀ k, token_denotes (Field.String f) k ↔ token_denotes s k) ∧
  (∀ k, Field.matches f k = true ↔ token_denotes s k) ∧
  (max < MaxInt64 → parseField (Field.String f) min max = Ok f) ∧
  (∃ f1 f2 f3,
     parseField (str "1,3-3,5") 0 6 = Ok f1 ∧
     parseField (str "1,3,5") 0 6 = Ok f2 ∧
     parseField (str "1-2,3") 0 6 = Ok f3 ∧
     Field.String f1 = str "1,3,5" ∧ Field.String f2 = str "1,3,5" ∧
     Field.String f3 = str "1-3").
Proof.
  intros Hparse. split_and!.
  - intros k. rewrite (Field_String_denotes s min max f k Hparse).
    by apply (parseField_denotes s min max).
  - by apply (parseField_denotes s min max).
  - by apply (parseField_String s).
  - do 3 eexists.
    split_and!; [vm_compute; reflexivity..| | |]; vm_compute; reflexivity.
Qed.

(** C4 at the token [1-2,3,9-11] with bounds 1 and 31. *)
Lemma C4_witness :
  ∃ f, parseField (str "1-2,3,9-11") 1 31 = Ok f ∧
       parseField (Field.String f) 1 31 = Ok f.
Proof.
  eexists. split; [vm_compute; reflexivity|].
  apply (C4_format_denotes_same_set (str "1-2,3,9-11") 1 31).
  - vm_compute. reflexivity.
  - reflexivity.
Defined.

(** ** Formatting a parsed TimeRange and reading it back *)

Lemma time_of_day_parts h m s :
  0 <= h <= 23 → 0 <= m <= 59 → 0 <= s <= 59 →
  let d := (h * 3600 + m * 60 + s) * time.Second in
  d ÷ time.Hour = h ∧
  (d `rem` time.Hour) ÷ time.Minute = m ∧
  (d `rem` time.Minute) ÷ time.Second = s.
Proof.
  intros Hh Hm Hs d. subst d.
  unfold time.Hour, time.Minute, time.Second.
  rewrite !Z.rem_mod_nonneg by lia.
  assert (((h * 3600 + m * 60 + s) * 1000000000)
            `mod` (60 * (60 * 1000000000)) = (m * 60 + s) * 1000000000) as ->.
  { symmetry. apply (Z.mod_unique _ _ h); lia. }
  assert (((h * 3600 + m * 60 + s) * 1000000000)
            `mod` (60 * 1000000000) = s * 1000000000) as ->.
  { symmetry. apply (Z.mod_unique _ _ (h * 60 + m)); lia. }
  rewrite !Z.quot_div_nonneg by lia. split_and!.
  - symmetry. apply (Z.div_unique _ _ _ ((m * 60 + s) * 1000000000)); lia.
  - symmetry. apply (Z.div_unique _ _ _ (s * 1000000000)); lia.
  - symmetry. apply (Z.div_unique _ _ _ 0); lia.
Qed.

Lemma Split_app_str a b sep :
  sep ∉ a → Split (a ++ [sep] ++ b) sep = a :: Split b sep.
Proof. apply Split_app_sep. Qed.

Lemma colon_not_digit : ch ":" ∉ str "0123456789".
Proof. by_decide. Qed.

Lemma dash_not_clock : ch "-" ∉ str "0123456789:".
Proof. by_decide. Qed.

Lemma fmt_02d_no_colon z : 0 <= z → ch ":" ∉ fmt_02d z.
Proof.
  intros Hz.
  eapply over_not_elem; [apply colon_not_digit|by apply fmt_02d_digits].
Qed.

Lemma digits_clock s : over "0123456789" s → over "0123456789:" s.
Proof. apply over_weaken. intros c Hc. in_alphabet Hc; by_decide. Qed.

(** The text of a time of day, with or without seconds. *)
Lemma clock_token h m s (hasSeconds : bool) :
  0 <= h <= 23 → 0 <= m <= 59 → 0 <= s <= 59 →
  (hasSeconds = false → s = 0) →
  let text := if hasSeconds
              then fmt_02d h ++ [ch ":"] ++ fmt_02d m ++ [ch ":"] ++ fmt_02d s
              else fmt_02d h ++ [ch ":"] ++ fmt_02d m in
  time_token text h m s hasSeconds ∧ over "0123456789:" text ∧ text ≠ [].
Proof.
  intros Hh Hm Hs Hsec text. subst text.
  assert (over "0123456789:" [ch ":"]) as Hcolon.
  { apply over_cons. split; [by_decide|apply over_nil]. }
  pose proof (fmt_02d_nonempty h) as Hne.
  destruct hasSeconds.
  - split_and!.
    + unfold time_token. split_and!; try lia. right. split; [done|].
      exists (fmt_02d h), (fmt_02d m), (fmt_02d s).
      rewrite !Split_app_str, Split_nosep by (apply fmt_02d_no_colon; lia).
      unfold MaxInt64.
      split_and!; [done|apply Atoi_fmt_02d; unfold MaxInt64; lia..].
    + rewrite !over_app.
      split_and!; try done; apply digits_clock, fmt_02d_digits; lia.
    + by destruct (fmt_02d h).
  - split_and!.
    + unfold time_token. split_and!; try lia. left.
      split; [done|]. split; [by apply Hsec|].
      exists (fmt_02d h), (fmt_02d m).
      rewrite !Split_app_str, Split_nosep by (apply fmt_02d_no_colon; lia).
      split_and!; [done|apply Atoi_fmt_02d; unfold MaxInt64; lia..].
    + rewrite !over_app.
      split_and!; try done; apply digits_clock, fmt_02d_digits; lia.
    + by destruct (fmt_02d h).
Qed.

Lemma time_token_ranges p h m s hs :
  time_token p h m s hs →
  0 <= h <= 23 ∧ 0 <= m <= 59 ∧ 0 <= s <= 59 ∧ (hs = false → s = 0).
Proof.
  intros (? & ? & ? & [(_ & -> & _)|(-> & _)]); split_and!; try lia; done.
Qed.

Lemma clock_range_text (l r : gostring) :
  over "0123456789:" l → over "0123456789:" r →
  over "0123456789:-,*" (l ++ [ch "-"] ++ r) ∧
  l ++ [ch "-"] ++ r ≠ str "*" ∧
  Split (l ++ [ch "-"] ++ r) (ch "-") = [l; r].
Proof.
  intros Hl Hr.
  assert (∀ c, c ∈ str "0123456789:" → c ∈ str "0123456789:-,*") as Hsub.
  { intros c Hc. in_alphabet Hc; by_decide. }
  split_and!.
  - rewrite !over_app. split_and!; [by eapply over_weaken| |by eapply over_weaken].
    apply over_cons. split; [by_decide|apply over_nil].
  - intros Heq. assert (ch "-" ∈ str "*") as Hin; [|revert Hin; by_decide].
    rewrite <- Heq. apply dash_in_middle.
  - rewrite Split_app_str, Split_nosep;
      [done|by eapply over_not_elem; [apply dash_not_clock|]..].
Qed.

(** The text of a parsed TimeRange parses back to the same TimeRange. *)
Lemma parseTimeRange_String p tr :
  parseTimeRange p = Ok tr →
  parseTimeRange (TimeRange.String tr) = Ok tr ∧
  over "0123456789:-,*" (TimeRange.String tr) ∧
  TimeRange.String tr ≠ [].
Proof.
  intros [[_ ->]|(_ & p0 & p1 & h0 & m0 & s0 & hs0 & h1 & m1 & s1 & hs1 &
                  _ & Ht0 & Ht1 & ->)]%parseTimeRange_Ok.
  { split_and!; [done|by_decide|done]. }
  apply time_token_ranges in Ht0 as (Hh0 & Hm0 & Hs0 & Hsec0).
  apply time_token_ranges in Ht1 as (Hh1 & Hm1 & Hs1 & Hsec1).
  cbv beta iota zeta delta [TimeRange.String TimeRange.all TimeRange.start
                            TimeRange.end_ TimeRange.hasSeconds].
  destruct (time_of_day_parts h0 m0 s0 Hh0 Hm0 Hs0) as (-> & -> & ->).
  destruct (time_of_day_parts h1 m1 s1 Hh1 Hm1 Hs1) as (-> & -> & ->).
  change (str ":") with [ch ":"]. change (str "-") with [ch "-"].
  set (hs := hs0 || hs1).
  assert (hs = false → s0 = 0 ∧ s1 = 0) as Hsec.
  { subst hs. intros [-> ->]%orb_false_elim. by split; [apply Hsec0|apply Hsec1]. }
  destruct (clock_token h0 m0 s0 hs Hh0 Hm0 Hs0 ltac:(intros; by apply Hsec))
    as (Htok0 & Ha0 & Hne0).
  destruct (clock_token h1 m1 s1 hs Hh1 Hm1 Hs1 ltac:(intros; by apply Hsec))
    as (Htok1 & Ha1 & Hne1).
  assert (∀ l r, over "0123456789:" l → over "0123456789:" r → l ≠ [] →
            time_token l h0 m0 s0 hs → time_token r h1 m1 s1 hs →
            parseTimeRange (l ++ [ch "-"] ++ r) =
              Ok (TimeRange.mk ((h0 * 3600 + m0 * 60 + s0) * time.Second)
                    ((h1 * 3600 + m1 * 60 + s1) * time.Second) false
                    ((h1 * 3600 + m1 * 60 + s1) * time.Second <?
                     (h0 * 3600 + m0 * 60 + s0) * time.Second) hs) ∧
            over "0123456789:-,*" (l ++ [ch "-"] ++ r) ∧
            l ++ [ch "-"] ++ r ≠ []) as Hgen.
  { intros l r Hl Hr Hlne Hl0 Hr1.
    destruct (clock_range_text l r Hl Hr) as (Hover & Hstar & Hsplit).
    split_and!; [|done|by destruct l].
    unfold parseTimeRange. rewrite bool_decide_eq_false_2 by done.
    rewrite Hsplit.
    rewrite (parseTime_complete _ _ _ _ _ Hl0). simpl.
    rewrite (parseTime_complete _ _ _ _ _ Hr1). simpl.
    by rewrite orb_diag. }
  destruct (Hgen _ _ Ha0 Ha1 Hne0 Htok0 Htok1) as (Hparse & Hover & Hne).
  destruct hs; rewrite <- ?app_assoc in Hparse, Hover, Hne; done.
Qed.

(** ** White space around rendered tokens *)

Lemma space_len_token c s :
  c ∈ str "0123456789:-,*" → space_len (c :: s) = 0%nat.
Proof. intros Hc. in_alphabet Hc; reflexivity. Qed.

Lemma space_len_space s : space_len (ch " " :: s) = 1%nat.
Proof. reflexivity. Qed.

Lemma space_len_rule c s :
  c ∈ str "0123456789:-,* " →
  (space_len (c :: s) =? 2)%nat = false ∧ (space_len (c :: s) =? 3)%nat = false.
Proof. intros Hc. in_alphabet Hc; by split. Qed.

Lemma Fields_go_token t rest cur :
  over "0123456789:-,*" t →
  Fields_go (t ++ rest) 0 cur = Fields_go rest 0 (cur ++ t).
Proof.
  revert cur. induction t as [|c t IH]; intros cur Ht; simpl.
  - by rewrite app_nil_r.
  - apply over_cons in Ht as [Hc Ht].
    rewrite (space_len_token c (t ++ rest) Hc).
    rewrite IH by done. by rewrite <- app_assoc.
Qed.

Lemma Fields_go_space rest cur :
  Fields_go ([ch " "] ++ rest) 0 cur = flush cur ++ Fields_go rest 0 [].
Proof. reflexivity. Qed.

Lemma flush_nonempty t : t ≠ [] → flush t = [t].
Proof. by destruct t. Qed.

Lemma Fields_four t0 t1 t2 t3 :
  over "0123456789:-,*" t0 → over "0123456789:-,*" t1 →
  over "0123456789:-,*" t2 → over "0123456789:-,*" t3 →
  t0 ≠ [] → t1 ≠ [] → t2 ≠ [] → t3 ≠ [] →
  Fields (t0 ++ [ch " "] ++ t1 ++ [ch " "] ++ t2 ++ [ch " "] ++ t3)
  = [t0; t1; t2; t3].
Proof.
  intros H0 H1 H2 H3 N0 N1 N2 N3. unfold Fields.
  rewrite Fields_go_token, Fields_go_space by done.
  rewrite Fields_go_token, Fields_go_space by done.
  rewrite Fields_go_token, Fields_go_space by done.
  rewrite <- (app_nil_r t3) at 1. rewrite Fields_go_token by done.
  simpl. by rewrite !flush_nonempty.
Qed.

Lemma trim_with_stop width fuel s :
  width s = 0%nat → trim_with width fuel s = s.
Proof. intros Hw. destruct fuel; simpl; [done|]. by rewrite Hw. Qed.

Lemma space_len_rev_rule d r :
  d ∈ str "0123456789:-,*" → over "0123456789:-,* " r →
  space_len_rev (d :: r) = 0%nat.
Proof.
  intros Hd Hr. unfold space_len_rev.
  rewrite (space_len_token d [] Hd). simpl Nat.eqb. cbv iota.
  destruct r as [|c1 r]; [done|].
  apply over_cons in Hr as [Hc1 Hr].
  destruct (space_len_rule c1 [d] Hc1) as [-> _].
  destruct r as [|c0 r]; [done|].
  apply over_cons in Hr as [Hc0 Hr].
  by destruct (space_len_rule c0 [c1; d] Hc0) as [_ ->].
Qed.

(** Text that starts and ends with a token byte is left alone by
    [TrimSpace], also behind one leading blank. *)
Lemma TrimSpace_rule c s d r :
  c ∈ str "0123456789:-,*" → d ∈ str "0123456789:-,*" →
  over "0123456789:-,* " s → reverse (c :: s) = d :: r →
  TrimSpace (c :: s) = c :: s ∧ TrimSpace ([ch " "] ++ c :: s) = c :: s.
Proof.
  intros Hc Hd Hs Hrev.
  assert (over "0123456789:-,* " r) as Hr.
  { assert (over "0123456789:-,* " (d :: r)) as Hdr; [|by apply over_cons in Hdr as [_ ?]].
    rewrite <- Hrev. apply Forall_reverse, over_cons. split; [|done].
    in_alphabet Hc; by_decide. }
  assert (reverse (trim_with space_len_rev (length (c :: s)) (reverse (c :: s)))
          = c :: s) as Hright.
  { rewrite Hrev, trim_with_stop by (by apply space_len_rev_rule).
    by rewrite <- Hrev, reverse_involutive. }
  split.
  - unfold TrimSpace. cbv zeta.
    rewrite (trim_with_stop space_len) by (by apply space_len_token).
    exact Hright.
  - unfold TrimSpace. cbv zeta.
    change (trim_with space_len (length ([ch " "] ++ c :: s)) ([ch " "] ++ c :: s))
      with (trim_with space_len (length (c :: s)) (c :: s)).
    rewrite (trim_with_stop space_len) by (by apply space_len_token).
    exact Hright.
Qed.

(** ** Segments of a formatted rule list *)

Lemma Split_cons_other c s sep :
  c ≠ sep →
  Split (c :: s) sep =
    match Split s sep with p :: ps => (c :: p) :: ps | [] => [[c]] end.
Proof. intros Hc. simpl. by rewrite bool_decide_eq_false_2. Qed.

Lemma Split_format l :
  Forall (λ e, ch ";" ∉ e) l →
  Split (Join l (str "; ")) (ch ";") =
    match l with
    | [] => [[]]
    | e :: es => e :: map (λ e', [ch " "] ++ e') es
    end.
Proof.
  induction l as [|e l IH]; [done|]. intros [He Hl]%Forall_cons.
  destruct l as [|e' l].
  - simpl. by apply Split_nosep.
  - change (Join (e :: e' :: l) (str "; "))
      with (e ++ ch ";" :: ch " " :: Join (e' :: l) (str "; ")).
    rewrite Split_app_sep by done.
    rewrite Split_cons_other by done. rewrite IH by done. done.
Qed.

(** ** Formatting parsed Rules and reading them back *)

Lemma Field_String_token s min max f :
  parseField s min max = Ok f →
  over "0123456789:-,*" (Field.String f) ∧ Field.String f ≠ [].
Proof.
  intros [[_ ->]|(_ & Hall & Hv & _ & Hne)]%parseField_Ok.
  { split; [by_decide|done]. }
  destruct (Field_String_runs f min max Hall Hv Hne)
    as (rs & Hrs & -> & Hbounds & _).
  split.
  - apply Join_alphabet.
    + rewrite map_fmap. apply Forall_fmap.
      eapply Forall_impl; [exact Hbounds|]. intros [a b] (? & ? & ? & ? & ?).
      simpl in *. eapply over_weaken; [|apply render_alphabet; lia].
      intros c Hc. in_alphabet Hc; by_decide.
    + apply over_cons. split; [by_decide|apply over_nil].
  - destruct rs as [|[a b] rs]; [done|]. simpl.
    pose proof (render_nonempty a b).
    destruct (map _ rs); [done|]. by destruct (Field.render a b).
Qed.

Lemma token_rule s : over "0123456789:-,*" s → over "0123456789:-,* " s.
Proof. apply over_weaken. intros c Hc. in_alphabet Hc; by_decide. Qed.

Lemma semicolon_not_rule : ch ";" ∉ str "0123456789:-,* ".
Proof. by_decide. Qed.

Lemma rule_text_trim t0 mid t3 :
  over "0123456789:-,*" t0 → t0 ≠ [] →
  over "0123456789:-,*" t3 → t3 ≠ [] →
  over "0123456789:-,* " mid →
  let text := t0 ++ mid ++ t3 in
  TrimSpace text = text ∧ TrimSpace ([ch " "] ++ text) = text ∧
  ch ";" ∉ text.
Proof.
  intros H0 N0 H3 N3 Hmid text.
  assert (over "0123456789:-,* " text) as Hover.
  { subst text. rewrite !over_app. split_and!; [by apply token_rule|done|].
    by apply token_rule. }
  destruct t0 as [|c t0]; [done|]. apply over_cons in H0 as [Hc H0].
  destruct (reverse t3) as [|d r3] eqn:Hr3.
  { destruct N3. apply (f_equal reverse) in Hr3.
    by rewrite reverse_involutive in Hr3. }
  assert (d ∈ str "0123456789:-,*") as Hd.
  { assert (over "0123456789:-,*" (reverse t3)) as Hrev
      by (by apply Forall_reverse).
    rewrite Hr3 in Hrev. by apply over_cons in Hrev as [? _]. }
  assert (reverse text = d :: (r3 ++ reverse ((c :: t0) ++ mid))) as Hrev.
  { subst text. by rewrite app_assoc, reverse_app, Hr3. }
  subst text. simpl in *. apply over_cons in Hover as [_ Hover].
  destruct (TrimSpace_rule c (t0 ++ mid ++ t3) d _ Hc Hd Hover Hrev)
    as [Hleft Hblank].
  split_and!; [done..|].
  eapply over_not_elem; [apply semicolon_not_rule|].
  apply over_cons. split; [|done]. in_alphabet Hc; by_decide.
Qed.

(** The text of a parsed Rule parses back to the same Rule, also behind
    the blank that follows a semicolon. *)
Lemma parseRule_String s r :
  parseRule s = Ok r →
  parseRule (TrimSpace (Rule.String r)) = Ok r ∧
  parseRule (TrimSpace ([ch " "] ++ Rule.String r)) = Ok r ∧
  ch ";" ∉ Rule.String r.
Proof.
  intros (p0 & p1 & p2 & p3 & _ & Htr & Hdow & Hdom & Hmonth)%parseRule_Ok.
  destruct (parseTimeRange_String _ _ Htr) as (Rtr & Atr & Ntr).
  destruct (Field_String_token _ _ _ _ Hdow) as (Adow & Ndow).
  destruct (Field_String_token _ _ _ _ Hdom) as (Adom & Ndom).
  destruct (Field_String_token _ _ _ _ Hmonth) as (Amonth & Nmonth).
  assert (over "0123456789:-,* " [ch " "]) as Hblank.
  { apply over_cons. split; [by_decide|apply over_nil]. }
  assert (parseRule (Rule.String r) = Ok r) as Hback.
  { unfold parseRule, Rule.String. change (str " ") with [ch " "].
    rewrite Fields_four by done.
    rewrite Rtr. simpl.
    rewrite (parseField_String _ _ _ _ Hdow) by (unfold MaxInt64; lia). simpl.
    rewrite (parseField_String _ _ _ _ Hdom) by (unfold MaxInt64; lia). simpl.
    rewrite (parseField_String _ _ _ _ Hmonth) by (unfold MaxInt64; lia). simpl.
    by destruct r. }
  destruct (rule_text_trim (TimeRange.String (Rule.timeRange r))
              ([ch " "] ++ Field.String (Rule.dow r) ++ [ch " "] ++
               Field.String (Rule.dom r) ++ [ch " "])
              (Field.String (Rule.month r)))
    as (Htrim & Htrim' & Hsemi); try done.
  { rewrite !over_app. split_and!; try done; by apply token_rule. }
  assert (Rule.String r =
          TimeRange.String (Rule.timeRange r) ++
          ([ch " "] ++ Field.String (Rule.dow r) ++ [ch " "] ++
           Field.String (Rule.dom r) ++ [ch " "]) ++
          Field.String (Rule.month r)) as Htext.
  { unfold Rule.String. change (str " ") with [ch " "].
    by rewrite <- !app_assoc. }
  split_and!.
  - by rewrite Htext, Htrim, <- Htext.
  - by rewrite Htext, Htrim', <- Htext.
  - by rewrite Htext.
Qed.

Lemma Parse_loop_Ok segs res rs :
  Parse_loop segs res = Ok rs →
  ∃ rs', rs = res ++ rs' ∧ length rs' = length segs ∧
         Forall (λ r, ∃ seg, parseRule seg = Ok r) rs'.
Proof.
  revert res. induction segs as [|seg segs IH]; intros res; simpl.
  - intros [= <-]. exists []. by rewrite app_nil_r.
  - intros H. inv_bind H. apply wrap_err_Ok in Ha.
    apply IH in H as (rs' & -> & Hlen & Hall).
    exists (a :: rs'). split_and!.
    + by rewrite <- app_assoc.
    + simpl. by rewrite Hlen.
    + constructor; [by eauto|done].
Qed.

Lemma Parse_loop_segments segs rs res :
  Forall2 (λ seg r, parseRule (TrimSpace seg) = Ok r) segs rs →
  Parse_loop segs res = Ok (res ++ rs).
Proof.
  intros Hall. revert res.
  induction Hall as [|seg r segs rs Hseg Hall IH]; intros res; simpl.
  - by rewrite app_nil_r.
  - rewrite Hseg. simpl. rewrite IH. by rewrite <- app_assoc.
Qed.

Lemma Parse_format rs :
  rs ≠ [] → Forall (λ r, ∃ seg, parseRule seg = Ok r) rs →
  Parse (format rs) = Ok rs.
Proof.
  intros Hne Hall. unfold Parse, format.
  rewrite Split_format; cycle 1.
  { rewrite map_fmap. apply Forall_fmap.
    eapply Forall_impl; [exact Hall|]. intros r [seg Hr]. simpl.
    by destruct (parseRule_String seg r Hr) as (_ & _ & ?). }
  destruct rs as [|r rs]; [done|]. simpl map.
  apply Forall_cons in Hall as [[seg Hr] Hall].
  apply (Parse_loop_segments _ (r :: rs) []). constructor.
  - by destruct (parseRule_String seg r Hr) as (? & _).
  - clear Hne Hr. induction rs as [|r' rs IH]; [constructor|].
    apply Forall_cons in Hall as [[seg' Hr'] Hall]. simpl. constructor.
    + by destruct (parseRule_String seg' r' Hr') as (_ & ? & _).
    + by apply IH.
Qed.

(** C5: formatting is idempotent through the parser.  The Rules of an
    accepted expression, each rendered by [Rule.String] and joined by
    [; ], parse again, to the same Rules, so formatting the re-parsed
    Rules gives the same text. *)
Theorem C5_canonical_form_idempotent x rs :
  Parse x = Ok rs →
  ∃ rs', Parse (format rs) = Ok rs' ∧ format rs' = format rs ∧ rs' = rs.
Proof.
  intros Hparse. exists rs. split_and!; [|done..].
  unfold Parse in Hparse.
  pose proof (Split_nonempty x (ch ";")) as Hne.
  apply Parse_loop_Ok in Hparse as (rs' & -> & Hlen & Hall).
  apply Parse_format; [|done].
  destruct rs' as [|r rs']; [|done].
  destruct (Split x (ch ";")); [done|]. simpl in Hlen. lia.
Qed.

(** C5 at an expression of two segments. *)
Lemma C5_witness :
  ∃ rs, Parse (str "23:00:01-02:00 1,3-3,5 1-2,3 *;* 0,6 * 4-9") = Ok rs ∧
    ∃ rs', Parse (format rs) = Ok rs' ∧ format rs' = format rs ∧ rs' = rs.
Proof.
  eexists. split; [vm_compute; reflexivity|].
  apply (C5_canonical_form_idempotent
           (str "23:00:01-02:00 1,3-3,5 1-2,3 *;* 0,6 * 4-9")).
  vm_compute. reflexivity.
Defined.

(** * Further properties of the parser, the matcher and the loader *)

(** ** The parsers always return *)

Lemma parseField_item_not_Hang r min max values :
  max < MaxInt64 → parseField_item r min max values ≠ Hang.
Proof.
  intros Hmax. unfold parseField_item. destruct (Contains r (ch "-")).
  - destruct (Split r (ch "-")) as [|pa [|pb [|]]]; try done.
    pose proof (Atoi_not_Hang pa). pose proof (Atoi_not_Hang pb).
    destruct (Atoi pa) as [a| |] eqn:Ha; simpl; try done.
    destruct (Atoi pb) as [b| |] eqn:Hb; simpl; try done.
    destruct (_ || _) eqn:Hcond; [done|].
    apply orb_false_elim in Hcond as [Hcond ?%Z.ltb_ge].
    apply orb_false_elim in Hcond as [?%Z.ltb_ge ?%Z.ltb_ge].
    pose proof (Atoi_range _ _ Ha).
    destruct (range_loop_exits (Z.to_nat (b - a + 2)) a b values)
      as (v' & -> & _); [lia..|done].
  - pose proof (Atoi_not_Hang r).
    destruct (Atoi r); simpl; try done. by destruct (_ || _).
Qed.

Lemma parseField_not_Hang s min max :
  max < MaxInt64 → parseField s min max ≠ Hang.
Proof.
  intros Hmax. unfold parseField. case_bool_decide; [done|].
  assert (∀ rs values, parseField_loop rs min max values ≠ Hang) as Hloop.
  { induction rs as [|r rs IH]; intros values; simpl; [done|].
    pose proof (parseField_item_not_Hang r min max values Hmax).
    destruct (parseField_item r min max values); simpl; [apply IH|done..]. }
  specialize (Hloop (Split s (ch ",")) ∅).
  by destruct (parseField_loop _ _ _ _).
Qed.

Lemma parseRule_not_Hang s : parseRule s ≠ Hang.
Proof.
  unfold parseRule.
  destruct (Fields s) as [|p0 [|p1 [|p2 [|p3 [|]]]]]; try done.
  destruct (parseTimeRange_Ok_or_Err p0) as [[tr ->]|[e ->]]; [|done].
  simpl.
  pose proof (parseField_not_Hang p1 0 6 ltac:(done)).
  pose proof (parseField_not_Hang p2 1 31 ltac:(done)).
  pose proof (parseField_not_Hang p3 1 12 ltac:(done)).
  destruct (parseField p1 0 6); simpl; try done.
  destruct (parseField p2 1 31); simpl; try done.
  by destruct (parseField p3 1 12).
Qed.

Lemma Parse_loop_not_Hang segs res : Parse_loop segs res ≠ Hang.
Proof.
  revert res. induction segs as [|seg segs IH]; intros res; simpl; [done|].
  pose proof (parseRule_not_Hang (TrimSpace seg)).
  destruct (parseRule (TrimSpace seg)); simpl; [apply IH|done..].
Qed.

(** ** Parse, segment by segment *)

Lemma Parse_loop_inv segs res rs :
  Parse_loop segs res = Ok rs →
  ∃ rs', rs = res ++ rs' ∧
         Forall2 (λ seg r, parseRule (TrimSpace seg) = Ok r) segs rs'.
Proof.
  revert res. induction segs as [|seg segs IH]; intros res; simpl.
  - intros [= <-]. exists []. split; [by rewrite app_nil_r|constructor].
  - intros H. inv_bind H. apply wrap_err_Ok in Ha.
    apply IH in H as (rs' & -> & Hall).
    exists (a :: rs'). split; [by rewrite <- app_assoc|by constructor].
Qed.

Lemma Parse_loop_Err segs res e :
  Parse_loop segs res = Err e →
  ∃ pre seg post rs' cause,
    segs = pre ++ seg :: post ∧
    Forall2 (λ seg r, parseRule (TrimSpace seg) = Ok r) pre rs' ∧
    parseRule (TrimSpace seg) = Err cause ∧
    e = ErrInvalidRule seg cause.
Proof.
  revert res. induction segs as [|seg segs IH]; intros res; simpl; [done|].
  destruct (parseRule (TrimSpace seg)) as [r|cause|] eqn:Hseg; simpl.
  - intros (pre & seg' & post & rs' & cause & -> & Hpre & Hbad & ->)%IH.
    exists (seg :: pre), seg', post, (r :: rs'), cause.
    split_and!; try done. by constructor.
  - intros [= <-]. exists [], seg, segs, [], cause.
    split_and!; try done; constructor.
  - done.
Qed.

Lemma Parse_segments x rs :
  Parse x = Ok rs ↔
  Forall2 (λ seg r, parseRule (TrimSpace seg) = Ok r) (Split x (ch ";")) rs.
Proof.
  unfold Parse. split.
  - by intros (rs' & -> & Hall)%Parse_loop_inv.
  - intros Hall. by rewrite (Parse_loop_segments _ rs []).
Qed.

(** X1: [Parse] always returns, and it accepts an expression exactly when
    every semicolon-separated segment, trimmed, is accepted by
    [parseRule]; the result has the Rules of the segments in order, so one
    Rule per segment and never the empty list. *)
Theorem X1_Parse_by_segments x :
  Parse x ≠ Hang ∧
  (∀ rs, Parse x = Ok rs ↔
         Forall2 (λ seg r, parseRule (TrimSpace seg) = Ok r)
                 (Split x (ch ";")) rs) ∧
  (∀ rs, Parse x = Ok rs →
         length rs = length (Split x (ch ";")) ∧ rs ≠ []).
Proof.
  split_and!; [apply Parse_loop_not_Hang|apply Parse_segments|].
  intros rs Hall%Parse_segments.
  pose proof (Split_nonempty x (ch ";")) as Hne.
  apply Forall2_length in Hall as Hlen. split; [done|].
  intros ->. by destruct (Split x (ch ";")).
Qed.

(** X1 at an expression of two segments. *)
Lemma X1_witness :
  ∃ rs, Parse (str "* 0,6 * *; 09:00-17:00 1-5 * *") = Ok rs ∧
        length rs = 2%nat.
Proof.
  eexists. split; [vm_compute; reflexivity|].
  apply (proj2 (proj2 (X1_Parse_by_segments
                         (str "* 0,6 * *; 09:00-17:00 1-5 * *")))).
  vm_compute. reflexivity.
Defined.

(** X2: when [Parse] fails, the error names the first segment that
    [parseRule] rejects, by its text as written (not trimmed), and wraps
    the cause; the segments before it were accepted. *)
Theorem X2_Parse_first_error x e :
  Parse x = Err e →
  ∃ pre seg post rs' cause,
    Split x (ch ";") = pre ++ seg :: post ∧
    Forall2 (λ seg r, parseRule (TrimSpace seg) = Ok r) pre rs' ∧
    parseRule (TrimSpace seg) = Err cause ∧
    e = ErrInvalidRule seg cause.
Proof. apply Parse_loop_Err. Qed.

(** X2 at an expression whose second segment has a bad weekday. *)
Lemma X2_witness :
  ∃ pre seg post rs' cause,
    Split (str "* * * *; * 7 * *") (ch ";") = pre ++ seg :: post ∧
    Forall2 (λ seg r, parseRule (TrimSpace seg) = Ok r) pre rs' ∧
    parseRule (TrimSpace seg) = Err cause ∧
    ErrInvalidRule (str " * 7 * *") (ErrInvalidDow ErrValueOutOfRange) =
      ErrInvalidRule seg cause.
Proof.
  apply (X2_Parse_first_error (str "* * * *; * 7 * *")).
  vm_compute. reflexivity.
Defined.

Lemma Split_app s t sep :
  Split (s ++ sep :: t) sep = Split s sep ++ Split t sep.
Proof.
  induction s as [|c s IH]; simpl.
  - by rewrite bool_decide_eq_true_2.
  - case_bool_decide; rewrite IH; [done|].
    pose proof (Split_nonempty s sep). by destruct (Split s sep).
Qed.

Lemma Parse_semicolon x y rs :
  Parse (x ++ [ch ";"] ++ y) = Ok rs ↔
  ∃ rs1 rs2, Parse x = Ok rs1 ∧ Parse y = Ok rs2 ∧ rs = rs1 ++ rs2.
Proof.
  rewrite Parse_segments.
  change (x ++ [ch ";"] ++ y) with (x ++ ch ";" :: y). rewrite Split_app.
  split.
  - intros (rs1 & rs2 & H1 & H2 & ->)%Forall2_app_inv_l.
    exists rs1, rs2. by split_and!; [apply Parse_segments..|].
  - intros (rs1 & rs2 & H1%Parse_segments & H2%Parse_segments & ->).
    by apply Forall2_app.
Qed.

(** X3: two expressions joined by a semicolon are accepted exactly when
    both are, and then give the Rules of the first followed by the Rules
    of the second. *)
Theorem X3_Parse_semicolon x y rs :
  Parse (x ++ [ch ";"] ++ y) = Ok rs ↔
  ∃ rs1 rs2, Parse x = Ok rs1 ∧ Parse y = Ok rs2 ∧ rs = rs1 ++ rs2.
Proof. apply Parse_semicolon. Qed.

(** X3 at two one-segment expressions. *)
Lemma X3_witness :
  ∃ rs1 rs2, Parse (str "17:20-21:35 1-5 * *") = Ok rs1 ∧
             Parse (str " * 0,6 * *") = Ok rs2 ∧
             ∃ rs, Parse (str "17:20-21:35 1-5 * *; * 0,6 * *") = Ok rs ∧
                   rs = rs1 ++ rs2.
Proof.
  destruct (proj1 (X3_Parse_semicolon (str "17:20-21:35 1-5 * *")
                     (str " * 0,6 * *") _) ltac:(vm_compute; reflexivity))
    as (rs1 & rs2 & H1 & H2 & Hrs).
  exists rs1, rs2. split_and!; [done..|]. eexists. split; [|exact Hrs].
  vm_compute. reflexivity.
Defined.

(** X4: an empty segment is never skipped: the empty expression is
    rejected with the field-count error, and so is every expression that
    ends or starts with a semicolon. *)
Theorem X4_empty_segment_rejected x rs :
  Parse [] = Err (ErrInvalidRule [] ErrFieldCount) ∧
  Parse (x ++ [ch ";"]) ≠ Ok rs ∧
  Parse ([ch ";"] ++ x) ≠ Ok rs.
Proof.
  split_and!; [done| |].
  - rewrite <- (app_nil_r [ch ";"]).
    intros (rs1 & rs2 & _ & H2 & _)%Parse_semicolon. done.
  - change ([ch ";"] ++ x) with ([] ++ [ch ";"] ++ x).
    intros (rs1 & rs2 & H1 & _ & _)%Parse_semicolon. done.
Qed.

Lemma Match_app rs1 rs2 t :
  Match (rs1 ++ rs2) t = Match rs1 t || Match rs2 t.
Proof.
  induction rs1 as [|r rs1 IH]; simpl; [done|].
  by destruct (Rule.matches r t).
Qed.

(** X5: the semicolon is a disjunction: an instant matches the Rules of
    [x;y] exactly when it matches the Rules of [x] or the Rules of [y]. *)
Theorem X5_semicolon_is_or x y rs1 rs2 :
  Parse x = Ok rs1 → Parse y = Ok rs2 →
  ∃ rs, Parse (x ++ [ch ";"] ++ y) = Ok rs ∧
        ∀ t, Match rs t = Match rs1 t || Match rs2 t.
Proof.
  intros H1 H2. exists (rs1 ++ rs2). split.
  - apply Parse_semicolon. by exists rs1, rs2.
  - intros t. apply Match_app.
Qed.

(** X5 at the weekday-evening and weekend expressions of the tests. *)
Lemma X5_witness :
  ∃ rs1 rs2 rs,
    Parse (str "17:20-21:35 1-5 * *") = Ok rs1 ∧
    Parse (str "* 0,6 * *") = Ok rs2 ∧
    Parse (str "17:20-21:35 1-5 * *;* 0,6 * *") = Ok rs ∧
    ∀ t, Match rs t = Match rs1 t || Match rs2 t.
Proof.
  do 2 eexists.
  assert (Parse (str "17:20-21:35 1-5 * *") = Ok ?[rs1]) as H1
    by (vm_compute; reflexivity).
  assert (Parse (str "* 0,6 * *") = Ok ?[rs2]) as H2
    by (vm_compute; reflexivity).
  destruct (X5_semicolon_is_or _ _ _ _ H1 H2) as (rs & Hrs & Hor).
  exists rs. split_and!; [exact H1|exact H2|exact Hrs|exact Hor].
Defined.

(** ** Bounded fields: what the parser stores and what the formatter shows *)

(** X6: a Field accepted by [parseField] is either the all-values Field
    of the asterisk, with no explicit value, or has the all flag off and a
    non-empty map in which every key is set to [true], is not negative and
    lies within the bounds; so such a Field matches no value outside the
    bounds. *)
Theorem X6_parseField_within_bounds s min max f :
  parseField s min max = Ok f →
  (s = str "*" ∧ Field.all f = true ∧ Field.values f = ∅) ∨
  (s ≠ str "*" ∧ Field.all f = false ∧
   (∃ k, Field.values f !! k = Some true) ∧
   (∀ k x, Field.values f !! k = Some x → x = true ∧ 0 <= k ∧ min <= k <= max) ∧
   (∀ k, Field.matches f k = true → 0 <= k ∧ min <= k <= max)).
Proof.
  intros [[-> ->]|(Hs & Hall & Hv & _ & Hne)]%parseField_Ok; [by left|right].
  split_and!; try done.
  - intros k x Hk. destruct (Hv k x Hk) as (? & ? & ? & _). done.
  - intros k. rewrite Field_matches_holds. unfold field_holds. rewrite Hall.
    intros [?|Hk]; [done|]. destruct (Hv k true Hk) as (_ & ? & ? & _). done.
Qed.

(** X6 at the weekday token [1-5]. *)
Lemma X6_witness :
  ∃ f, parseField (str "1-5") 0 6 = Ok f ∧
       ∀ k, Field.matches f k = true → 0 <= k ∧ 0 <= k <= 6.
Proof.
  eexists. split; [vm_compute; reflexivity|].
  destruct (X6_parseField_within_bounds (str "1-5") 0 6 _
              ltac:(vm_compute; reflexivity))
    as [(Hs & _)|(_ & _ & _ & _ & Hm)]; [|exact Hm].
  vm_compute in Hs. discriminate Hs.
Defined.

(** X7: the invariants of a parsed Rule.  Its TimeRange is the all-day
    one with zero boundaries, or has boundaries that are whole seconds of
    one day and the overnight flag set exactly when the end lies before
    the start; its day-of-week, day-of-month and month Fields admit only
    values of 0..6, 1..31 and 1..12 unless they are all-values Fields. *)
Theorem X7_parsed_Rule_invariants s r :
  parseRule s = Ok r →
  parsed_TimeRange (Rule.timeRange r) ∧
  (Field.all (Rule.dow r) = false →
   ∀ k, Field.matches (Rule.dow r) k = true → 0 <= k <= 6) ∧
  (Field.all (Rule.dom r) = false →
   ∀ k, Field.matches (Rule.dom r) k = true → 1 <= k <= 31) ∧
  (Field.all (Rule.month r) = false →
   ∀ k, Field.matches (Rule.month r) k = true → 1 <= k <= 12).
Proof.
  intros (p0 & p1 & p2 & p3 & _ & Htr & Hdow & Hdom & Hmonth)%parseRule_Ok.
  assert (∀ p min max f, parseField p min max = Ok f → Field.all f = false →
            ∀ k, Field.matches f k = true → min <= k <= max) as Hfield.
  { intros p min max f [[_ ->]|(_ & Hall & Hv & _)]%parseField_Ok Hoff k;
      [done|].
    rewrite Field_matches_holds. unfold field_holds. rewrite Hall.
    intros [?|Hk]; [done|]. destruct (Hv k true Hk) as (_ & _ & ? & _). done. }
  split_and!; [by eapply parseTimeRange_parsed|by eapply Hfield..].
Qed.

(** X7 at an overnight rule on weekdays in the first half of the year. *)
Lemma X7_witness :
  ∃ r, parseRule (str "23:00-02:00 1-5 * 1-6") = Ok r ∧
       parsed_TimeRange (Rule.timeRange r) ∧
       ∀ k, Field.matches (Rule.month r) k = true → 1 <= k <= 12.
Proof.
  eexists. split; [vm_compute; reflexivity|].
  destruct (X7_parsed_Rule_invariants (str "23:00-02:00 1-5 * 1-6") _
              ltac:(vm_compute; reflexivity)) as (Htr & _ & _ & Hmonth).
  split; [exact Htr|]. apply Hmonth. reflexivity.
Defined.

Lemma all_true_ext (m1 m2 : gmap Z bool) :
  (∀ k x, m1 !! k = Some x → x = true) →
  (∀ k x, m2 !! k = Some x → x = true) →
  (∀ k, m1 !! k = Some true ↔ m2 !! k = Some true) → m1 = m2.
Proof.
  intros H1 H2 Hiff. apply map_eq. intros k.
  destruct (m1 !! k) as [x1|] eqn:E1, (m2 !! k) as [x2|] eqn:E2; [| | |done].
  - by rewrite (H1 _ _ E1), (H2 _ _ E2).
  - rewrite (H1 _ _ E1) in E1. apply Hiff in E1. congruence.
  - rewrite (H2 _ _ E2) in E2. apply Hiff in E2. congruence.
Qed.

(** X8: the text of a parsed Field is canonical: two accepted tokens,
    under whatever bounds, whose Fields match the same integers are
    rendered by [Field.String] as the same text. *)
Theorem X8_same_set_same_text s1 min1 max1 f1 s2 min2 max2 f2 :
  parseField s1 min1 max1 = Ok f1 → parseField s2 min2 max2 = Ok f2 →
  (∀ k, Field.matches f1 k = Field.matches f2 k) →
  Field.String f1 = Field.String f2.
Proof.
  intros H1 H2 Hsame.
  assert (∀ s min max f, parseField s min max = Ok f → Field.all f = false →
            Field.matches f (max + 1) = false) as Hout.
  { intros s min max f [[_ ->]|(_ & Hall & Hv & _)]%parseField_Ok Hoff;
      [done|].
    apply not_true_is_false. rewrite Field_matches_holds.
    unfold field_holds. rewrite Hall. intros [?|Hk]; [done|].
    destruct (Hv _ _ Hk) as (_ & _ & ? & _). lia. }
  apply parseField_Ok in H1 as Hp1. apply parseField_Ok in H2 as Hp2.
  destruct Hp1 as [[_ ->]|(_ & Hall1 & Hv1 & _)],
           Hp2 as [[_ ->]|(_ & Hall2 & Hv2 & _)].
  - done.
  - specialize (Hout _ _ _ _ H2 Hall2). by rewrite <- Hsame in Hout.
  - specialize (Hout _ _ _ _ H1 Hall1). by rewrite Hsame in Hout.
  - assert (f1 = f2) as ->; [|done].
    destruct f1 as [v1 a1], f2 as [v2 a2]. simpl in *. subst a1 a2. f_equal.
    apply all_true_ext.
    + intros k x Hk. by destruct (Hv1 k x Hk).
    + intros k x Hk. by destruct (Hv2 k x Hk).
    + intros k. specialize (Hsame k). unfold Field.matches in Hsame.
      simpl in Hsame.
      destruct (v1 !! k) as [[]|], (v2 !! k) as [[]|]; simpl in Hsame;
        split; congruence.
Qed.

(** X8 at two spellings of the same days, under different bounds. *)
Lemma X8_witness :
  ∃ f1 f2, parseField (str "3,1-2,2,5") 0 6 = Ok f1 ∧
           parseField (str "5,1-3") 1 31 = Ok f2 ∧
           Field.String f1 = Field.String f2.
Proof.
  do 2 eexists. split; [vm_compute; reflexivity|].
  split; [vm_compute; reflexivity|].
  apply (X8_same_set_same_text (str "3,1-2,2,5") 0 6 _ (str "5,1-3") 1 31);
    [vm_compute; reflexivity..|].
  intros k. reflexivity.
Defined.

Lemma runs_separated vals start prev :
  start <= prev →
  StronglySorted Z.lt (prev :: vals) →
  StronglySorted run_gap (runs vals start prev).
Proof.
  revert start prev. induction vals as [|v vs IH]; intros start prev Hsp Hs;
    simpl.
  - repeat constructor.
  - apply StronglySorted_cons in Hs as [Hprev Hs].
    apply Forall_cons in Hprev as [Hpv _].
    destruct (Z.eqb_spec v (prev + 1)) as [Hv|Hv].
    + apply IH; [lia|done].
    + apply StronglySorted_cons. split; [|apply IH; [lia|done]].
      eapply Forall_impl; [apply (runs_bounds vs v v); [lia|done]|].
      intros [a b] (Ha & _ & _). unfold run_gap. simpl in *.
      apply elem_of_cons in Ha as [->|Ha]; [lia|].
      apply StronglySorted_cons in Hs as [Hv' _].
      pose proof (proj1 (Forall_forall _ _) Hv' a Ha). lia.
Qed.

(** X9: the text of a parsed Field with explicit values lists maximal
    runs: it is the comma-joined rendering of runs [a..b] within the
    bounds, in ascending order with a gap between any two of them, that
    together cover exactly the values the Field matches; a run of one
    value is rendered as that integer, a longer one as [a-b]. *)
Theorem X9_String_lists_maximal_runs s min max f :
  parseField s min max = Ok f → Field.all f = false →
  ∃ rs, rs ≠ [] ∧
    Field.String f = Join (map (λ ab, Field.render ab.1 ab.2) rs) (str ",") ∧
    Forall (λ ab, min <= ab.1 ∧ ab.1 <= ab.2 ∧ ab.2 <= max) rs ∧
    StronglySorted run_gap rs ∧
    (∀ k, Field.matches f k = true ↔ ∃ a b, (a, b) ∈ rs ∧ a <= k <= b) ∧
    (∀ a b, (a, b) ∈ rs →
       Field.render a b = if a =? b then fmt_d a
                          else fmt_d a ++ str "-" ++ fmt_d b).
Proof.
  intros [[_ ->]|(_ & Hall & Hv & _ & [k0 Hk0])]%parseField_Ok Hoff; [done|].
  unfold Field.String. rewrite Hall.
  destruct (sorted_keys (Field.values f)) as [Hsorted Hkeys].
  destruct (merge_sort Z.le (map fst (map_to_list (Field.values f))))
    as [|v0 rest] eqn:Hvals.
  { exfalso. eapply elem_of_nil, Hkeys. eauto. }
  assert (∀ k, k ∈ v0 :: rest ↔ Field.values f !! k = Some true) as Htrue.
  { intros k. rewrite Hkeys. split; [|by eauto]. intros [x Hx].
    by destruct (Hv _ _ Hx) as [-> _]. }
  assert (∀ k, k ∈ v0 :: rest → 0 <= k ∧ min <= k <= max ∧ k <= MaxInt64)
    as Hbound.
  { intros k Hk%Htrue. destruct (Hv _ _ Hk) as (_ & ? & ? & ?). done. }
  pose proof (String_loop_runs rest [] v0 v0) as Hloop.
  destruct (Field.String_loop rest [] v0 v0) as [[ranges start] prev].
  rewrite Hloop; cycle 1.
  { destruct (Hbound v0) as [? _]; [left|]. unfold MinInt64. lia. }
  { done. }
  { apply Forall_forall. intros v Hin. apply Hbound. by right. }
  exists (runs rest v0 v0). split_and!.
  - apply runs_nonempty.
  - done.
  - eapply Forall_impl; [apply runs_bounds; [lia|done]|].
    intros [a b] (Ha & Hb & Hab). simpl in *.
    destruct (Hbound a Ha) as (? & ? & ?), (Hbound b Hb) as (? & ? & ?). lia.
  - apply runs_separated; [lia|done].
  - intros k. rewrite runs_cover by (lia || done).
    rewrite Field_matches_holds. unfold field_holds.
    rewrite Hall, <- Htrue, elem_of_cons. split.
    + intros [?|[->|?]]; [done|left; lia|by right].
    + intros [?|?]; right; [left; lia|by right].
  - done.
Qed.

(** X9 at a day-of-month token with overlapping and adjacent items. *)
Lemma X9_witness :
  ∃ f rs, parseField (str "10,1-2,3,9-11,20") 1 31 = Ok f ∧
    Field.String f = Join (map (λ ab, Field.render ab.1 ab.2) rs) (str ",") ∧
    StronglySorted run_gap rs.
Proof.
  eexists.
  destruct (X9_String_lists_maximal_runs (str "10,1-2,3,9-11,20") 1 31 _
              ltac:(vm_compute; reflexivity) ltac:(reflexivity))
    as (rs & _ & Htext & _ & Hgap & _).
  exists rs. split_and!; [vm_compute; reflexivity|exact Htext|exact Hgap].
Defined.

Lemma sorted_unique (l1 l2 : list Z) :
  StronglySorted Z.lt l1 → StronglySorted Z.lt l2 →
  (∀ k, k ∈ l1 ↔ k ∈ l2) → l1 = l2.
Proof.
  revert l2. induction l1 as [|x1 l1 IH]; intros [|x2 l2] H1 H2 Hsame.
  - done.
  - exfalso. eapply elem_of_nil, Hsame. left.
  - exfalso. eapply elem_of_nil, Hsame. left.
  - apply StronglySorted_cons in H1 as [Hx1 H1].
    apply StronglySorted_cons in H2 as [Hx2 H2].
    pose proof (proj1 (Forall_forall _ _) Hx1) as Hlt1.
    pose proof (proj1 (Forall_forall _ _) Hx2) as Hlt2.
    assert (x1 = x2) as <-.
    { pose proof (proj1 (Hsame x1) ltac:(left)) as [?|Hin1]%elem_of_cons;
        [done|].
      pose proof (proj2 (Hsame x2) ltac:(left)) as [?|Hin2]%elem_of_cons;
        [done|].
      specialize (Hlt1 _ Hin2). specialize (Hlt2 _ Hin1). lia. }
    f_equal. apply IH; [done..|]. intros k. split.
    + intros Hk. pose proof (proj1 (Hsame k) ltac:(by right))
        as [->|?]%elem_of_cons; [|done].
      specialize (Hlt1 _ Hk). lia.
    + intros Hk. pose proof (proj2 (Hsame k) ltac:(by right))
        as [->|?]%elem_of_cons; [|done].
      specialize (Hlt2 _ Hk). lia.
Qed.

(** X10: [Field.String] reads the keys of the map only, while
    [Field.matches] reads the stored flags: two Fields with the same all
    flag and the same keys have the same text, so a key stored with
    [false] is shown in the text of a Field that does not match it. *)
Theorem X10_String_reads_keys_only f g :
  Field.all f = Field.all g →
  (∀ k, is_Some (Field.values f !! k) ↔ is_Some (Field.values g !! k)) →
  Field.String f = Field.String g ∧
  (∀ k, Field.all f = false → Field.values f !! k = Some false →
        Field.matches f k = false ∧
        Field.String f =
          Field.String (Field.mk (<[k := true]> (Field.values f)) false)).
Proof.
  assert (∀ f g, Field.all f = Field.all g →
            (∀ k, is_Some (Field.values f !! k) ↔
                  is_Some (Field.values g !! k)) →
            Field.String f = Field.String g) as Hkeys.
  { clear f g. intros f g Hall Hsame. unfold Field.String. rewrite Hall.
    destruct (sorted_keys (Field.values f)) as [Hsf Hkf].
    destruct (sorted_keys (Field.values g)) as [Hsg Hkg].
    rewrite (sorted_unique _ _ Hsf Hsg); [done|].
    intros k. by rewrite Hkf, Hkg. }
  intros Hall Hsame. split; [by apply Hkeys|].
  intros k Hoff Hk. split.
  - unfold Field.matches. by rewrite Hoff, Hk.
  - apply Hkeys; [done|]. simpl. intros k'.
    destruct (decide (k' = k)) as [->|Hne].
    + rewrite lookup_insert_eq, Hk. split; eauto.
    + by rewrite lookup_insert_ne.
Qed.

(** X10 at a Field that stores the key 3 with [false]. *)
Lemma X10_witness :
  Field.String (Field.mk {[3 := false]} false) =
  Field.String (Field.mk {[3 := true]} false) ∧
  Field.matches (Field.mk {[3 := false]} false) 3 = false.
Proof.
  destruct (X10_String_reads_keys_only (Field.mk {[3 := false]} false)
              (Field.mk {[3 := true]} false)) as [Htext Hkey].
  - reflexivity.
  - intros k. simpl. destruct (decide (k = 3)) as [->|Hne].
    + rewrite !lookup_singleton_eq. split; eauto.
    + by rewrite !lookup_singleton_ne.
  - split; [exact Htext|]. by apply (Hkey 3).
Defined.

(** ** Time ranges: text and matching *)

(** X11: the text of a parsed TimeRange parses back to the same
    TimeRange: boundaries, overnight flag and seconds flag are kept. *)
Theorem X11_TimeRange_round_trip p tr :
  parseTimeRange p = Ok tr → parseTimeRange (TimeRange.String tr) = Ok tr.
Proof. intros H. by destruct (parseTimeRange_String p tr H). Qed.

(** X11 at a range with hours and minutes of one digit and seconds on one
    side only. *)
Lemma X11_witness :
  ∃ tr, parseTimeRange (str "9:5-17:0:30") = Ok tr ∧
        TimeRange.String tr = str "09:05:00-17:00:30" ∧
        parseTimeRange (TimeRange.String tr) = Ok tr.
Proof.
  eexists. split; [vm_compute; reflexivity|]. split; [vm_compute; reflexivity|].
  apply (X11_TimeRange_round_trip (str "9:5-17:0:30")).
  vm_compute. reflexivity.
Defined.

Lemma fmt_02d_length z : 0 <= z <= 99 → length (fmt_02d z) = 2%nat.
Proof.
  intros Hz.
  assert (Forall (λ z, length (fmt_02d z) = 2%nat) (seqZ 0 100)) as Hall
    by by_decide.
  eapply Forall_forall in Hall; [exact Hall|]. apply elem_of_seqZ. lia.
Qed.

Lemma TimeRange_String_length p tr :
  parseTimeRange p = Ok tr → TimeRange.all tr = false →
  length (TimeRange.String tr) =
    (if TimeRange.hasSeconds tr then 17 else 11)%nat.
Proof.
  intros [[_ ->]|(_ & p0 & p1 & h0 & m0 & s0 & hs0 & h1 & m1 & s1 & hs1 &
                  _ & Ht0 & Ht1 & ->)]%parseTimeRange_Ok Hall; [done|].
  apply time_token_ranges in Ht0 as (Hh0 & Hm0 & Hs0 & _).
  apply time_token_ranges in Ht1 as (Hh1 & Hm1 & Hs1 & _).
  cbv beta iota zeta delta [TimeRange.String TimeRange.all TimeRange.start
                            TimeRange.end_ TimeRange.hasSeconds].
  destruct (time_of_day_parts h0 m0 s0 Hh0 Hm0 Hs0) as (-> & -> & ->).
  destruct (time_of_day_parts h1 m1 s1 Hh1 Hm1 Hs1) as (-> & -> & ->).
  destruct (hs0 || hs1); rewrite !length_app, !fmt_02d_length by lia; done.
Qed.


(** X12: a parsed TimeRange other than the all-day one is rendered at a
    fixed width, every component as two digits: [HH:MM-HH:MM], 11 bytes,
    or with seconds on both sides, [HH:MM:SS-HH:MM:SS], 17 bytes, as soon
    as one side was written with seconds. *)
Theorem X12_TimeRange_text_width p tr :
  parseTimeRange p = Ok tr → TimeRange.all tr = false →
  length (TimeRange.String tr) =
    (if TimeRange.hasSeconds tr then 17 else 11)%nat.
Proof. apply TimeRange_String_length. Qed.

(** X12 at a range written with single digits. *)
Lemma X12_witness :
  ∃ tr, parseTimeRange (str "9:5-17:0") = Ok tr ∧
        length (TimeRange.String tr) = 11%nat.
Proof.
  eexists. split; [vm_compute; reflexivity|].
  apply (X12_TimeRange_text_width (str "9:5-17:0"));
    [vm_compute; reflexivity|reflexivity].
Defined.

Lemma Split_single s sep p : Split s sep = [p] → s = p.
Proof. intros H. pose proof (Join_Split s sep) as Hj. by rewrite H in Hj. Qed.

Lemma parseTimeRange_dash pa pb tr :
  parseTimeRange (pa ++ [ch "-"] ++ pb) = Ok tr →
  ∃ da ha db hb, parseTime pa = Ok (da, ha) ∧ parseTime pb = Ok (db, hb) ∧
    tr = TimeRange.mk da db false (db <? da) (ha || hb) ∧
    (ch "-" ∉ pa) ∧ (ch "-" ∉ pb).
Proof.
  unfold parseTimeRange. case_bool_decide as Hstar.
  { exfalso. assert (ch "-" ∈ str "*") as Hin; [|revert Hin; by_decide].
    rewrite <- Hstar. apply dash_in_middle. }
  change (pa ++ [ch "-"] ++ pb) with (pa ++ ch "-" :: pb). rewrite Split_app.
  pose proof (Split_nonempty pa (ch "-")) as Hna.
  pose proof (Split_nonempty pb (ch "-")) as Hnb.
  destruct (Split pa (ch "-")) as [|p0 [|p0' la]] eqn:Hpa; [done| |];
    destruct (Split pb (ch "-")) as [|p1 [|p1' lb]] eqn:Hpb; try done.
  - pose proof (Split_pieces pa (ch "-")) as Hda. rewrite Hpa in Hda.
    pose proof (Split_pieces pb (ch "-")) as Hdb. rewrite Hpb in Hdb.
    apply Forall_cons in Hda as [Hda _]. apply Forall_cons in Hdb as [Hdb _].
    apply Split_single in Hpa as <-. apply Split_single in Hpb as <-.
    simpl. intros H. inv_bind H. destruct a as [da ha].
    inv_bind H. destruct a as [db hb]. injection H as <-.
    by exists da, ha, db, hb.
  - simpl. by destruct la.
  - simpl. by destruct la.
Qed.

(** X13: a time range and the range with its boundaries swapped cover
    the whole day between them: when the two boundaries differ, an
    instant matches the rule of [a-b] or the rule of [b-a] exactly when
    it matches the all-day rule with the same Fields. *)
Theorem X13_swapped_range_covers_the_day pa pb tr1 tr2 dow dom month t :
  parseTimeRange (pa ++ [ch "-"] ++ pb) = Ok tr1 →
  parseTimeRange (pb ++ [ch "-"] ++ pa) = Ok tr2 →
  TimeRange.start tr1 ≠ TimeRange.end_ tr1 →
  Rule.matches (Rule.mk tr1 dow dom month) t ||
  Rule.matches (Rule.mk tr2 dow dom month) t =
  Rule.matches (Rule.mk (TimeRange.mk 0 0 true false false) dow dom month) t.
Proof.
  intros (da & ha & db & hb & Ha & Hb & -> & _)%parseTimeRange_dash
         (db' & hb' & da' & ha' & Hb' & Ha' & -> & _)%parseTimeRange_dash Hne.
  rewrite Ha in Ha'. rewrite Hb in Hb'.
  injection Ha' as <- <-. injection Hb' as <- <-. simpl in Hne.
  unfold Rule.matches. simpl.
  destruct (Field.matches month _); simpl; [|done].
  destruct (Field.matches dom _); simpl; [|done].
  destruct (Field.matches dow _); simpl; [|done].
  set (cur := add64 _ _).
  destruct (Z.ltb_spec db da), (Z.ltb_spec da db); try lia;
    destruct (Z.leb_spec da cur), (Z.leb_spec cur db),
             (Z.leb_spec db cur), (Z.leb_spec cur da); simpl; try done; lia.
Qed.

(** X13 at office hours and their complement, on a Monday at 20:00. *)
Lemma X13_witness :
  ∃ tr1 tr2,
    parseTimeRange (str "09:00-17:00") = Ok tr1 ∧
    parseTimeRange (str "17:00-09:00") = Ok tr2 ∧
    Rule.matches (Rule.mk tr1 (Field.mk ∅ true) (Field.mk ∅ true)
                    (Field.mk ∅ true)) (Time.mk 1 1 1 20 0 0) ||
    Rule.matches (Rule.mk tr2 (Field.mk ∅ true) (Field.mk ∅ true)
                    (Field.mk ∅ true)) (Time.mk 1 1 1 20 0 0) = true.
Proof.
  do 2 eexists. split; [vm_compute; reflexivity|].
  split; [vm_compute; reflexivity|].
  apply (X13_swapped_range_covers_the_day (str "09:00") (str "17:00"));
    [vm_compute; reflexivity|vm_compute; reflexivity|].
  vm_compute. discriminate.
Defined.

(** ** Rules: text and parsing *)

Lemma Rule_String_fields s r :
  parseRule s = Ok r →
  Fields (Rule.String r) =
    [TimeRange.String (Rule.timeRange r); Field.String (Rule.dow r);
     Field.String (Rule.dom r); Field.String (Rule.month r)].
Proof.
  intros (p0 & p1 & p2 & p3 & _ & Htr & Hdow & Hdom & Hmonth)%parseRule_Ok.
  destruct (parseTimeRange_String _ _ Htr) as (_ & Atr & Ntr).
  destruct (Field_String_token _ _ _ _ Hdow) as (Adow & Ndow).
  destruct (Field_String_token _ _ _ _ Hdom) as (Adom & Ndom).
  destruct (Field_String_token _ _ _ _ Hmonth) as (Amonth & Nmonth).
  unfold Rule.String. change (str " ") with [ch " "].
  by apply Fields_four.
Qed.

(** X14: the text of a parsed Rule splits into the four texts of its
    parts and parses back, as it stands, to the very same Rule. *)
Theorem X14_Rule_round_trip s r :
  parseRule s = Ok r →
  Fields (Rule.String r) =
    [TimeRange.String (Rule.timeRange r); Field.String (Rule.dow r);
     Field.String (Rule.dom r); Field.String (Rule.month r)] ∧
  parseRule (Rule.String r) = Ok r.
Proof.
  intros Hr. pose proof (Rule_String_fields s r Hr) as Hfields.
  split; [done|]. unfold parseRule. rewrite Hfields.
  apply parseRule_Ok in Hr
    as (p0 & p1 & p2 & p3 & _ & Htr & Hdow & Hdom & Hmonth).
  destruct (parseTimeRange_String _ _ Htr) as (-> & _). simpl.
  rewrite (parseField_String _ _ _ _ Hdow) by (unfold MaxInt64; lia). simpl.
  rewrite (parseField_String _ _ _ _ Hdom) by (unfold MaxInt64; lia). simpl.
  rewrite (parseField_String _ _ _ _ Hmonth) by (unfold MaxInt64; lia). simpl.
  by destruct r.
Qed.

(** X14 at a segment with extra blanks and a list to be compressed. *)
Lemma X14_witness :
  ∃ r, parseRule (str "  9:00-17:30   1,2,3,5 *  4-9 ") = Ok r ∧
       Rule.String r = str "09:00-17:30 1-3,5 * 4-9" ∧
       parseRule (Rule.String r) = Ok r.
Proof.
  eexists. split; [vm_compute; reflexivity|]. split; [vm_compute; reflexivity|].
  apply (X14_Rule_round_trip (str "  9:00-17:30   1,2,3,5 *  4-9 ")).
  vm_compute. reflexivity.
Defined.

(** X15: the errors of [parseRule] in the order of its checks: the field
    count first, then the time range, whose error is passed on as it is,
    then day of week, day of month and month, whose errors are wrapped
    with the name of the field; a later field is only looked at when the
    earlier ones were accepted. *)
Theorem X15_parseRule_errors s e :
  parseRule s = Err e →
  (length (Fields s) ≠ 4%nat ∧ e = ErrFieldCount) ∨
  ∃ p0 p1 p2 p3, Fields s = [p0; p1; p2; p3] ∧
    (parseTimeRange p0 = Err e ∨
     ∃ tr, parseTimeRange p0 = Ok tr ∧
       ((∃ e', parseField p1 0 6 = Err e' ∧ e = ErrInvalidDow e') ∨
        ∃ dow, parseField p1 0 6 = Ok dow ∧
          ((∃ e', parseField p2 1 31 = Err e' ∧ e = ErrInvalidDom e') ∨
           ∃ dom, parseField p2 1 31 = Ok dom ∧
             ∃ e', parseField p3 1 12 = Err e' ∧ e = ErrInvalidMonth e'))).
Proof.
  unfold parseRule.
  destruct (Fields s) as [|p0 [|p1 [|p2 [|p3 [|]]]]] eqn:Hf;
    try (intros [= <-]; left; by split).
  intros H. right. exists p0, p1, p2, p3. split; [done|].
  destruct (parseTimeRange p0) as [tr|e0|]; simpl in H;
    [|injection H as <-; by left|done].
  right. exists tr. split; [done|].
  destruct (parseField p1 0 6) as [dow|e1|]; simpl in H;
    [|injection H as <-; left; by exists e1|done].
  right. exists dow. split; [done|].
  destruct (parseField p2 1 31) as [dom|e2|]; simpl in H;
    [|injection H as <-; left; by exists e2|done].
  right. exists dom. split; [done|].
  destruct (parseField p3 1 12) as [month|e3|]; simpl in H;
    [done|injection H as <-; by exists e3|done].
Qed.

(** X15 at a segment whose time range and month are both wrong: the time
    range is reported. *)
Lemma X15_witness :
  (length (Fields (str "25:00-26:00 1-5 * 13")) ≠ 4%nat ∧
   ErrTimeValues = ErrFieldCount) ∨
  ∃ p0 p1 p2 p3, Fields (str "25:00-26:00 1-5 * 13") = [p0; p1; p2; p3] ∧
    (parseTimeRange p0 = Err ErrTimeValues ∨
     ∃ tr, parseTimeRange p0 = Ok tr ∧
       ((∃ e', parseField p1 0 6 = Err e' ∧ ErrTimeValues = ErrInvalidDow e') ∨
        ∃ dow, parseField p1 0 6 = Ok dow ∧
          ((∃ e', parseField p2 1 31 = Err e' ∧
                  ErrTimeValues = ErrInvalidDom e') ∨
           ∃ dom, parseField p2 1 31 = Ok dom ∧
             ∃ e', parseField p3 1 12 = Err e' ∧
                   ErrTimeValues = ErrInvalidMonth e'))).
Proof.
  apply (X15_parseRule_errors (str "25:00-26:00 1-5 * 13")).
  vm_compute. reflexivity.
Defined.

(** ** The batch loader beyond the token limit and as one expression *)

Lemma scan_lines_long fuel data :
  (length data <= fuel)%nat →
  Exists (λ l, (MaxScanTokenSize <= length l)%nat) (text_lines data) →
  (scan_lines fuel data).2 = Some ErrTooLong.
Proof.
  revert data. induction fuel as [|fuel IH]; intros data Hfuel Hlong.
  - destruct data; [by apply Exists_nil in Hlong|simpl in Hfuel; lia].
  - destruct data as [|c data]; [by apply Exists_nil in Hlong|].
    unfold scan_lines; fold scan_lines.
    destruct (IndexByte_nl (c :: data)) as [i|] eqn:Hidx.
    + apply IndexByte_nl_Some in Hidx as (Hnot & Heq & Hlen).
      destruct (Nat.ltb_spec i MaxScanTokenSize) as [Hi|Hi]; [|done].
      rewrite Heq in Hlong. rewrite text_lines_cons in Hlong by done.
      apply Exists_cons in Hlong as [Hlong|Hlong]; [lia|].
      specialize (IH (drop (S i) (c :: data))).
      destruct (scan_lines fuel (drop (S i) (c :: data))) as [lines e].
      simpl in *. apply IH; [|done]. rewrite length_drop. simpl. lia.
    + apply IndexByte_nl_None in Hidx.
      rewrite text_lines_last in Hlong by done.
      apply Exists_cons in Hlong as [Hlong|Hlong];
        [|by apply Exists_nil in Hlong].
      by rewrite (proj2 (Nat.ltb_ge _ _)) by done.
Qed.

Lemma ParseFromReader_loop_not_Hang lines res :
  ParseFromReader_loop lines res ≠ Hang.
Proof.
  revert res. induction lines as [|line lines IH]; intros res; simpl; [done|].
  case_bool_decide; [apply IH|].
  pose proof (Parse_loop_not_Hang (Split (TrimSpace line) (ch ";")) []) as Hp.
  fold (Parse (TrimSpace line)) in Hp.
  destruct (Parse (TrimSpace line)); simpl; [apply IH|done..].
Qed.

Lemma ParseFromReader_loop_inv lines res rs :
  ParseFromReader_loop lines res = Ok rs →
  ∃ rss, Forall2 (λ e r, Parse e = Ok r)
                 (filter (λ e, e ≠ []) (map TrimSpace lines)) rss ∧
         rs = res ++ concat rss.
Proof.
  revert res. induction lines as [|line lines IH]; intros res; simpl.
  - intros [= <-]. exists []. rewrite filter_nil. simpl.
    split; [constructor|by rewrite app_nil_r].
  - rewrite filter_cons. case_bool_decide as Hblank.
    + rewrite decide_False by (by intros ?). apply IH.
    + rewrite decide_True by done. intros H. inv_bind H.
      apply wrap_err_Ok in Ha. apply IH in H as (rss & Hall & ->).
      exists (a :: rss). split; [by constructor|]. simpl.
      by rewrite app_assoc.
Qed.

Lemma ParseFromReader_long_line buf :
  Exists (λ l, (MaxScanTokenSize <= length l)%nat) (text_lines buf) →
  is_Err (ParseFromReader (Ok buf)).
Proof.
  intros Hlong. unfold ParseFromReader. simpl.
  case_bool_decide as Hlen.
  { apply nil_length_inv in Hlen. subst buf. by apply Exists_nil in Hlong. }
  pose proof (scan_lines_long (length buf) buf ltac:(done) Hlong) as Hscan.
  destruct (scan_lines (length buf) buf) as [lines e]. simpl in Hscan.
  subst e. pose proof (ParseFromReader_loop_not_Hang lines []).
  destruct (ParseFromReader_loop lines []); simpl; [eauto|eauto|done].
Qed.

(** X16: a line that reaches the scanner's token limit makes the whole
    load fail: whatever the other lines are, [ParseFromReader] returns an
    error and no Rules. *)
Theorem X16_long_line_fails_the_load buf :
  Exists (λ l, (MaxScanTokenSize <= length l)%nat) (text_lines buf) →
  is_Err (ParseFromReader (Ok buf)).
Proof. apply ParseFromReader_long_line. Qed.

(** X16 at a valid expression followed by blanks up to the limit. *)
Lemma X16_witness :
  is_Err (ParseFromReader
            (Ok (str "* * * *" ++ replicate (Z.to_nat 65529) (ch " ")))).
Proof.
  apply X16_long_line_fails_the_load. by_decide.
Defined.

Lemma ParseFromReader_all_or_nothing buf rs :
  ParseFromReader (Ok buf) ≠ Hang ∧
  (ParseFromReader (Ok buf) = Ok rs ↔
   Forall (λ l, (length l < MaxScanTokenSize)%nat) (text_lines buf) ∧
   ∃ rss, Forall2 (λ e r, Parse e = Ok r) (expressions buf) rss ∧
          rs = concat rss).
Proof.
  assert (ParseFromReader (Ok buf) ≠ Hang) as Hreturns.
  { unfold ParseFromReader. simpl. case_bool_decide; [done|].
    destruct (scan_lines (length buf) buf) as [lines e].
    pose proof (ParseFromReader_loop_not_Hang lines []).
    destruct (ParseFromReader_loop lines []); simpl; [by destruct e|done..]. }
  split; [done|]. split.
  - intros Hok.
    assert (Forall (λ l, (length l < MaxScanTokenSize)%nat) (text_lines buf))
      as Hshort.
    { destruct (decide (Forall (λ l, (length l < MaxScanTokenSize)%nat)
                          (text_lines buf))) as [?|Hnot]; [done|].
      apply not_Forall_Exists in Hnot; [|apply _].
      destruct (ParseFromReader_long_line buf) as [e He].
      - eapply Exists_impl; [exact Hnot|]. simpl. intros l ?. lia.
      - congruence. }
    split; [done|]. revert Hok. unfold ParseFromReader, expressions. simpl.
    rewrite <- (map_map dropCR TrimSpace).
    case_bool_decide as Hlen.
    + apply nil_length_inv in Hlen. subst buf. intros [= <-].
      exists []. simpl. rewrite filter_nil. split; [constructor|done].
    + rewrite scan_lines_short by done. intros H. inv_bind H.
      injection H as <-. by apply ParseFromReader_loop_inv in Ha.
  - intros (Hshort & rss & Hall & ->).
    unfold ParseFromReader. simpl. unfold expressions in Hall.
    rewrite <- (map_map dropCR TrimSpace) in Hall.
    case_bool_decide as Hlen.
    + apply nil_length_inv in Hlen. subst buf. simpl in Hall.
      rewrite filter_nil in Hall. by apply Forall2_nil_inv_l in Hall as ->.
    + rewrite scan_lines_short by done.
      by rewrite (ParseFromReader_loop_Ok _ [] rss Hall).
Qed.


(** X17: the load is all or nothing.  [ParseFromReader] returns Rules
    exactly when no line reaches the token limit and every expression of
    the stream is accepted by [Parse], and the Rules are then those of the
    expressions, appended in line order; and it always returns. *)
Theorem X17_load_all_or_nothing buf rs :
  ParseFromReader (Ok buf) ≠ Hang ∧
  (ParseFromReader (Ok buf) = Ok rs ↔
   Forall (λ l, (length l < MaxScanTokenSize)%nat) (text_lines buf) ∧
   ∃ rss, Forall2 (λ e r, Parse e = Ok r) (expressions buf) rss ∧
          rs = concat rss).
Proof. apply ParseFromReader_all_or_nothing. Qed.

(** X17 at a stream of two lines with a carriage return and a blank
    line. *)
Lemma X17_witness :
  ∃ rs,
    ParseFromReader
      (Ok (str "* 0,6 * *" ++ [CR; LF; LF] ++ str "* * 1 *; * * 2 *")) = Ok rs ∧
    ∃ rss,
      Forall2 (λ e r, Parse e = Ok r)
        (expressions (str "* 0,6 * *" ++ [CR; LF; LF] ++ str "* * 1 *; * * 2 *"))
        rss ∧ rs = concat rss.
Proof.
  eexists. split; [vm_compute; reflexivity|].
  apply (proj1 (proj2 (X17_load_all_or_nothing
                         (str "* 0,6 * *" ++ [CR; LF; LF] ++
                          str "* * 1 *; * * 2 *") _))).
  vm_compute. reflexivity.
Defined.

Lemma Parse_Join es rs :
  es ≠ [] →
  Parse (Join es [ch ";"]) = Ok rs ↔
  ∃ rss, Forall2 (λ e r, Parse e = Ok r) es rss ∧ rs = concat rss.
Proof.
  revert rs. induction es as [|e es IH]; intros rs Hne; [done|].
  destruct es as [|e' es].
  - simpl. split.
    + intros He. exists [rs]. split; [by repeat constructor|].
      simpl. by rewrite app_nil_r.
    + intros (rss & (r & rss' & Hr & ->%Forall2_nil_inv_l & ->)%Forall2_cons_inv_l
              & ->).
      simpl. by rewrite app_nil_r.
  - change (Join (e :: e' :: es) [ch ";"])
      with (e ++ [ch ";"] ++ Join (e' :: es) [ch ";"]).
    rewrite Parse_semicolon. split.
    + intros (rs1 & rs2 & H1 & (rss & Hall & ->)%IH & ->); [|done].
      exists (rs1 :: rss). split; [by constructor|done].
    + intros (rss & (r & rss' & Hr & Hall & ->)%Forall2_cons_inv_l & ->).
      exists r, (concat rss'). split_and!; [done| |done].
      apply IH; [done|]. by exists rss'.
Qed.

(** X18: a stream is read as one expression: with no line at the token
    limit and at least one line that is not blank, [ParseFromReader]
    returns the Rules that [Parse] returns for the expressions of the
    stream joined by semicolons. *)
Theorem X18_stream_as_one_expression buf rs :
  Forall (λ l, (length l < MaxScanTokenSize)%nat) (text_lines buf) →
  expressions buf ≠ [] →
  ParseFromReader (Ok buf) = Ok rs ↔
  Parse (Join (expressions buf) [ch ";"]) = Ok rs.
Proof.
  intros Hshort Hne.
  rewrite (proj2 (ParseFromReader_all_or_nothing buf rs)).
  rewrite Parse_Join by done. intuition.
Qed.

(** X18 at a stream of two lines. *)
Lemma X18_witness :
  ParseFromReader (Ok (str "* 0,6 * *" ++ [LF] ++ str "* * 1 *; * * 2 *")) =
  Parse (str "* 0,6 * *;* * 1 *; * * 2 *").
Proof.
  assert (∃ rs, Parse (str "* 0,6 * *;* * 1 *; * * 2 *") = Ok rs) as [rs Hrs]
    by (eexists; vm_compute; reflexivity).
  rewrite Hrs.
  apply (X18_stream_as_one_expression
           (str "* 0,6 * *" ++ [LF] ++ str "* * 1 *; * * 2 *")).
  - by_decide.
  - vm_compute. discriminate.
  - exact Hrs.
Defined.

(** ** Lists of items: the comma is union *)

Lemma parseField_item_any_values r min max values values' w :
  parseField_item r min max values = Ok values' →
  ∃ w', parseField_item r min max w = Ok w'.
Proof.
  intros (a & b & Ha & Hmin & Hab & Hmax & _ & _ & Hshape)%parseField_item_Ok.
  destruct Hshape as [(Hr & <- & Hatoi)|(pa & pb & -> & Hpa & Hpb & Hpa' & Hpb' & Hb)].
  - rewrite (parseField_item_bare r a) by done.
    rewrite (proj2 (Z.ltb_ge _ _)), (proj2 (Z.ltb_ge _ _)) by lia. eauto.
  - rewrite (parseField_item_range pa pb a b) by done.
    rewrite !(proj2 (Z.ltb_ge _ _)) by lia. simpl.
    destruct (range_loop_exits (Z.to_nat (b - a + 2)) a b w)
      as (w' & -> & _); [unfold MinInt64; lia|lia..|]. eauto.
Qed.

Lemma parseField_loop_any_values rs min max values values' w :
  parseField_loop rs min max values = Ok values' →
  ∃ w', parseField_loop rs min max w = Ok w'.
Proof.
  revert values w. induction rs as [|r rs IH]; intros values w; simpl;
    [by eauto|].
  intros H. inv_bind H.
  destruct (parseField_item_any_values _ _ _ _ _ w Ha) as [w1 ->]. simpl.
  by eapply IH.
Qed.

Lemma parseField_loop_app rs1 rs2 min max values :
  parseField_loop (rs1 ++ rs2) min max values =
  parseField_loop rs1 min max values ≫= parseField_loop rs2 min max.
Proof.
  revert values. induction rs1 as [|r rs1 IH]; intros values; simpl; [done|].
  destruct (parseField_item r min max values); simpl; [apply IH|done..].
Qed.

(** X19: the comma is set union.  When two tokens other than the
    asterisk are accepted under the same bounds, so is the token made of
    the two joined by a comma, and its Field matches exactly the integers
    that one of the two Fields matches; overlap between the two is no
    error. *)
Theorem X19_comma_is_union s1 s2 min max f1 f2 :
  s1 ≠ str "*" → s2 ≠ str "*" →
  parseField s1 min max = Ok f1 → parseField s2 min max = Ok f2 →
  ∃ f, parseField (s1 ++ [ch ","] ++ s2) min max = Ok f ∧
       ∀ k, Field.matches f k = Field.matches f1 k || Field.matches f2 k.
Proof.
  intros Hs1 Hs2 H1 H2.
  assert (∀ k, token_denotes (s1 ++ [ch ","] ++ s2) k ↔
               token_denotes s1 k ∨ token_denotes s2 k) as Hden.
  { intros k. unfold token_denotes.
    change (s1 ++ [ch ","] ++ s2) with (s1 ++ ch "," :: s2).
    rewrite Split_app. setoid_rewrite elem_of_app. split.
    - intros [Hstar|(r & [?|?] & ?)].
      + exfalso. assert (ch "," ∈ str "*") as Hin; [|revert Hin; by_decide].
        rewrite <- Hstar. apply elem_of_app. right. left.
      + left. right. by exists r.
      + right. right. by exists r.
    - intros [[?|(r & ? & ?)]|[?|(r & ? & ?)]]; try done;
        right; exists r; split; auto. }
  assert (∃ f, parseField (s1 ++ [ch ","] ++ s2) min max = Ok f) as [f Hf].
  { revert H1 H2. unfold parseField.
    rewrite !bool_decide_eq_false_2 by done.
    rewrite bool_decide_eq_false_2; cycle 1.
    { intros Hstar. assert (ch "," ∈ str "*") as Hin; [|revert Hin; by_decide].
      rewrite <- Hstar. apply elem_of_app. right. left. }
    change (s1 ++ [ch ","] ++ s2) with (s1 ++ ch "," :: s2).
    rewrite Split_app, parseField_loop_app.
    intros H1 H2. inv_bind H1. inv_bind H2.
    destruct (parseField_loop_any_values _ _ _ _ _ a Ha0) as [w Hw].
    rewrite Ha. unfold mbind, result_bind. cbv beta iota.
    rewrite Hw. eauto. }
  exists f. split; [done|]. intros k. apply eq_true_iff_eq.
  rewrite orb_true_iff.
  rewrite (parseField_denotes _ _ _ _ Hf), (parseField_denotes _ _ _ _ H1),
    (parseField_denotes _ _ _ _ H2). apply Hden.
Qed.

(** X19 at two overlapping day-of-month tokens. *)
Lemma X19_witness :
  ∃ f1 f2 f,
    parseField (str "1-10") 1 31 = Ok f1 ∧
    parseField (str "5-15,20") 1 31 = Ok f2 ∧
    parseField (str "1-10,5-15,20") 1 31 = Ok f ∧
    ∀ k, Field.matches f k = Field.matches f1 k || Field.matches f2 k.
Proof.
  do 2 eexists.
  assert (parseField (str "1-10") 1 31 = Ok ?[f1]) as H1
    by (vm_compute; reflexivity).
  assert (parseField (str "5-15,20") 1 31 = Ok ?[f2]) as H2
    by (vm_compute; reflexivity).
  destruct (X19_comma_is_union (str "1-10") (str "5-15,20") 1 31 _ _
              ltac:(vm_compute; discriminate) ltac:(vm_compute; discriminate)
              H1 H2) as (f & Hf & Hor).
  exists f. split_and!; [exact H1|exact H2|exact Hf|exact Hor].
Defined.

(** ** Seconds written as zero *)

Lemma parseTime_zero_seconds p d :
  parseTime p = Ok (d, false) → parseTime (p ++ str ":00") = Ok (d, true).
Proof.
  intros (h & m & s & (Hh & Hm & Hs & Hshape) & ->)%parseTime_Ok.
  destruct Hshape as [(_ & -> & ph & pm & Hsp & Ha & Hb)|[? _]]; [|done].
  apply (parseTime_complete _ h m 0 true). unfold time_token.
  split_and!; try lia. right. split; [done|]. exists ph, pm, (str "00").
  change (p ++ str ":00") with (p ++ ch ":" :: str "00").
  rewrite Split_app, Hsp. done.
Qed.

(** X20: seconds written as [:00] on both sides change the text and not
    the meaning: when a range written without seconds is accepted, so is
    the range with [:00] added to both boundaries, with the same
    boundaries and overnight flag and only the seconds flag set; the two
    match the same instants, and the second is rendered six bytes
    longer. *)
Theorem X20_zero_seconds_keep_the_range pa pb tr :
  parseTimeRange (pa ++ [ch "-"] ++ pb) = Ok tr →
  TimeRange.hasSeconds tr = false →
  ∃ tr',
    parseTimeRange ((pa ++ str ":00") ++ [ch "-"] ++ (pb ++ str ":00"))
      = Ok tr' ∧
    tr' = TimeRange.mk (TimeRange.start tr) (TimeRange.end_ tr) false
            (TimeRange.overnight tr) true ∧
    (∀ dow dom month t,
       Rule.matches (Rule.mk tr' dow dom month) t =
       Rule.matches (Rule.mk tr dow dom month) t) ∧
    length (TimeRange.String tr') = (length (TimeRange.String tr) + 6)%nat.
Proof.
  intros Hparse Hsec.
  pose proof Hparse as
    (da & ha & db & hb & Ha & Hb & -> & Hda & Hdb)%parseTimeRange_dash.
  simpl in Hsec. apply orb_false_elim in Hsec as [-> ->].
  assert (parseTimeRange ((pa ++ str ":00") ++ [ch "-"] ++ (pb ++ str ":00"))
          = Ok (TimeRange.mk da db false (db <? da) true)) as Hparse'.
  { unfold parseTimeRange. rewrite bool_decide_eq_false_2; cycle 1.
    { intros Hstar. assert (ch "-" ∈ str "*") as Hin; [|revert Hin; by_decide].
      rewrite <- Hstar. apply dash_in_middle. }
    assert (∀ q, ch "-" ∉ q → ch "-" ∉ q ++ str ":00") as Hno.
    { intros q Hq [?|Hin]%elem_of_app; [done|]. revert Hin. by_decide. }
    rewrite Split_app_str, Split_nosep by (by apply Hno).
    rewrite (parseTime_zero_seconds _ _ Ha).
    unfold mbind, result_bind. cbv beta iota.
    by rewrite (parseTime_zero_seconds _ _ Hb). }
  eexists. split; [exact Hparse'|]. split_and!; [done|done|].
  rewrite (TimeRange_String_length _ _ Hparse') by done.
  rewrite (TimeRange_String_length _ _ Hparse) by done. done.
Qed.

(** X20 at office hours. *)
Lemma X20_witness :
  ∃ tr tr',
    parseTimeRange (str "09:00-17:00") = Ok tr ∧
    parseTimeRange (str "09:00:00-17:00:00") = Ok tr' ∧
    ∀ dow dom month t,
      Rule.matches (Rule.mk tr' dow dom month) t =
      Rule.matches (Rule.mk tr dow dom month) t.
Proof.
  eexists.
  assert (parseTimeRange (str "09:00" ++ [ch "-"] ++ str "17:00") = Ok ?[tr])
    as Htr by (vm_compute; reflexivity).
  destruct (X20_zero_seconds_keep_the_range (str "09:00") (str "17:00") _ Htr
              ltac:(reflexivity)) as (tr' & Htr' & _ & Hsame & _).
  exists tr'. split_and!; [exact Htr|exact Htr'|exact Hsame].
Defined.
